(** * An event-organising data model: users, events and sign-ups

    A shallow embedding of [src/api/models.py]: the three record classes
    [User], [Event] and [Signedup_events], their validators, setters,
    password hashing, persistence hook and serializers, followed by the
    properties the specification states about them.

    Conventions.
    - A Python [str] is a list of Unicode code points ([N]); [bytes] is a
      list of [byte].
    - A method that reads or mutates [self], consumes operating-system
      randomness or talks to the database session is a computation in the
      state-and-exception monad [Py.M]: it maps a state to an outcome (a
      returned value or a raised exception) and the state it leaves.  The
      state is kept on a raise as well, since Python keeps every assignment
      made before the exception.
    - What the interpreter and its libraries supply and the file cannot
      contain (the Unicode character database beyond Latin-1, the PBKDF2
      primitive of [hashlib]) is a parameter of the development. *)

From Stdlib Require Import ZArith NArith List String Ascii Bool Lia.
From Stdlib Require Import Strings.Byte.
Import ListNotations.

(* ================================================================== *)
(** * Python run-time notions *)
(* ================================================================== *)

Module Py.

(** [str]: a sequence of code points, each in [0, 0x10FFFF]. Lone surrogates
    (U+D800..U+DFFF) are legal elements of a Python string. *)
Definition str := list N.

Definition bytes := list byte.

(** A string literal of the source, as code points. *)
Definition lit (s : string) : str :=
  map (fun a => N_of_ascii a) (list_ascii_of_string s).

(** [datetime.datetime]: the naive date-time value. *)
Record datetime := mkdatetime {
  year : Z; month : Z; day : Z;
  hour : Z; minute : Z; second : Z; microsecond : Z
}.

(** The dynamically typed values that the attributes of the models hold. *)
Inductive value :=
| VNone
| VBool (b : bool)
| VInt (z : Z)
| VStr (s : str)
| VBytes (b : bytes)
| VDateTime (d : datetime).

(** A plain instance attribute that is no mapped column: reading it before
    any assignment raises [AttributeError]. (A mapped column that was never
    assigned reads as [None] instead, which the models below render with
    [option].) *)
Inductive attr (A : Type) :=
| Absent
| Present (a : A).
Arguments Absent {A}.
Arguments Present {A} a.

(** The exceptions the models can raise. [UnicodeEncodeError] is a subclass of
    [ValueError] in Python; it is kept apart here because it carries no
    message of the models. [IntegrityError] is what the database session
    raises on a violated table constraint. *)
Inductive exn :=
| ValueError (msg : string)
| UnicodeEncodeError
| AttributeError (name : string)
| IntegrityError (constraint : string).

Inductive outcome (A : Type) :=
| Return (a : A)
| Raise (e : exn).
Arguments Return {A} a.
Arguments Raise {A} e.

(** ** The state-and-exception monad *)

Definition M (St A : Type) : Type := St -> outcome A * St.

Definition ret {St A} (a : A) : M St A := fun st => (Return a, st).

Definition raise {St A} (e : exn) : M St A := fun st => (Raise e, st).

Definition bind {St A B} (m : M St A) (k : A -> M St B) : M St B :=
  fun st =>
    match m st with
    | (Return a, st') => k a st'
    | (Raise e, st') => (Raise e, st')
    end.

Definition get {St} : M St St := fun st => (Return st, st).

Definition put {St} (st : St) : M St unit := fun _ => (Return tt, st).

Definition modify {St} (f : St -> St) : M St unit := fun st => (Return tt, f st).

Declare Scope py_scope.
Delimit Scope py_scope with py.

Notation "x <- m ;; k" := (bind m (fun x => k))
  (at level 61, m at next level, right associativity) : py_scope.
Notation "m ;; k" := (bind m (fun _ => k))
  (at level 61, right associativity) : py_scope.

(** ** [str.encode('utf-8')] *)

Definition byte_of_N (n : N) : byte :=
  match Byte.of_N (n mod 256) with
  | Some b => b
  | None => x00
  end.

(** One code point under the strict UTF-8 codec: one to four bytes, and no
    encoding for a surrogate ([None] stands for [UnicodeEncodeError]). A
    number above 0x10FFFF is no code point and is refused as well. *)
Definition encode_code_point (c : N) : option bytes :=
  if (c <? 0x80)%N then
    Some [byte_of_N c]
  else if (c <? 0x800)%N then
    Some [byte_of_N (N.lor 0xC0 (N.shiftr c 6));
          byte_of_N (N.lor 0x80 (N.land c 0x3F))]
  else if ((0xD800 <=? c) && (c <=? 0xDFFF))%N then
    None
  else if (c <? 0x10000)%N then
    Some [byte_of_N (N.lor 0xE0 (N.shiftr c 12));
          byte_of_N (N.lor 0x80 (N.land (N.shiftr c 6) 0x3F));
          byte_of_N (N.lor 0x80 (N.land c 0x3F))]
  else if (c <? 0x110000)%N then
    Some [byte_of_N (N.lor 0xF0 (N.shiftr c 18));
          byte_of_N (N.lor 0x80 (N.land (N.shiftr c 12) 0x3F));
          byte_of_N (N.lor 0x80 (N.land (N.shiftr c 6) 0x3F));
          byte_of_N (N.lor 0x80 (N.land c 0x3F))]
  else
    None.

Fixpoint encode_utf8 (s : str) : option bytes :=
  match s with
  | [] => Some []
  | c :: rest =>
      match encode_code_point c, encode_utf8 rest with
      | Some b, Some bs => Some (b ++ bs)
      | _, _ => None
      end
  end.

(** [password.encode('utf-8')] as a computation. *)
Definition encode {St} (s : str) : M St bytes :=
  match encode_utf8 s with
  | Some b => ret b
  | None => raise UnicodeEncodeError
  end.

(** ** [bytes.__eq__] against an arbitrary value *)

Fixpoint bytes_eqb (a b : bytes) : bool :=
  match a, b with
  | [], [] => true
  | x :: a', y :: b' => Byte.eqb x y && bytes_eqb a' b'
  | _, _ => false
  end.

(** [b == v]: true exactly when [v] is a bytes object with the same
    contents; a string, a number or [None] never equals a bytes object. *)
Definition bytes_eq_value (b : bytes) (v : value) : bool :=
  match v with
  | VBytes b' => bytes_eqb b b'
  | _ => false
  end.

(** ** [os.urandom] *)

(** The operating system's randomness: an unbounded supply of bytes and the
    number of bytes handed out so far. *)
Record os_random := mkos {
  entropy : nat -> byte;
  drawn : nat
}.

(** [os.urandom(n)]: the next [n] bytes of the supply. *)
Definition urandom (n : nat) (r : os_random) : bytes * os_random :=
  (map (entropy r) (seq (drawn r) n),
   {| entropy := entropy r; drawn := drawn r + n |}).

(** ** Mappings and column reads *)

(** A [dict] literal: the keys in the order they are written, each with its
    value. *)
Definition mapping := list (string * value).

Definition keys (m : mapping) : list string := map fst m.

(** A mapped column read: [None] while it holds nothing. *)
Definition of_int (v : option Z) : value :=
  match v with Some z => VInt z | None => VNone end.

Definition of_str (v : option str) : value :=
  match v with Some s => VStr s | None => VNone end.

Definition of_bool (v : option bool) : value :=
  match v with Some b => VBool b | None => VNone end.

(** A replacement field of an f-string over a column that holds a string:
    the string itself, and the word None while the column is empty. *)
Definition format_str (v : option str) : str :=
  match v with Some s => s | None => lit "None" end.

End Py.

Import Py.
Open Scope py_scope.

(* ================================================================== *)
(** * The Unicode character database *)
(* ================================================================== *)

Module Unicode.

(** What the interpreter's character database says about the code points
    that this file does not tabulate: whether a code point from U+0100 on is
    alphanumeric ([Py_UNICODE_ISALNUM]: alphabetic, decimal, digit or
    numeric), and the value of a decimal digit (category Nd) from U+0080
    on. *)
Record db := mkdb {
  db_alnum : N -> bool;
  db_decimal : N -> option N
}.

(** ASCII: [0-9], [A-Z], [a-z]. *)
Definition ascii_alnum (c : N) : bool :=
  ((48 <=? c) && (c <=? 57) || (65 <=? c) && (c <=? 90)
   || (97 <=? c) && (c <=? 122))%N.

(** The Latin-1 supplement (U+0080..U+00FF): the letters U+00C0..U+00FF
    without the two operators U+00D7 and U+00F7, the ordinal indicators
    U+00AA and U+00BA, the micro sign U+00B5, the superscript digits U+00B2,
    U+00B3 and U+00B9, and the fractions U+00BC..U+00BE. *)
Definition latin1_alnum (c : N) : bool :=
  ((c =? 0xAA) || (c =? 0xB2) || (c =? 0xB3) || (c =? 0xB5) || (c =? 0xB9)
   || (c =? 0xBA) || (0xBC <=? c) && (c <=? 0xBE)
   || (0xC0 <=? c) && (c <=? 0xD6) || (0xD8 <=? c) && (c <=? 0xF6)
   || (0xF8 <=? c) && (c <=? 0xFF))%N.

Definition isalnum (U : db) (c : N) : bool :=
  if (c <? 0x80)%N then ascii_alnum c
  else if (c <? 0x100)%N then latin1_alnum c
  else db_alnum U c.

(** The value of a decimal digit: ASCII [0-9], and beyond ASCII what the
    database says (Latin-1 has no further decimal digit). *)
Definition decimal (U : db) (c : N) : option N :=
  if (c <? 0x80)%N then
    if ((48 <=? c) && (c <=? 57))%N then Some (c - 48)%N else None
  else if (c <? 0x100)%N then None
  else db_decimal U c.

Definition isdecimal (U : db) (c : N) : bool :=
  match decimal U c with Some _ => true | None => false end.

End Unicode.

(* ================================================================== *)
(** * The fragment of [re] that the models use *)
(* ================================================================== *)

Module Re.

(** A character class: [\w], [\d], a literal, a bracket expression. *)
Definition cls := N -> bool.

(** [\w] on a [str] pattern without the ASCII flag: alphanumeric in the
    Unicode sense, or the underscore. *)
Definition word (U : Unicode.db) : cls :=
  fun c => Unicode.isalnum U c || (c =? 95)%N.

(** [\d] on a [str] pattern: a Unicode decimal digit. *)
Definition digit (U : Unicode.db) : cls := Unicode.isdecimal U.

Definition chr (a : ascii) : cls := fun c => (c =? N_of_ascii a)%N.

Definition range (lo hi : ascii) : cls :=
  fun c => ((N_of_ascii lo <=? c) && (c <=? N_of_ascii hi))%N.

Definition union (p q : cls) : cls := fun c => p c || q c.

(** The items a pattern is a sequence of. *)
Inductive item :=
| Bos                                   (* ^ *)
| Eos                                   (* $ *)
| One (c : cls)                         (* a single character of a class *)
| Many1 (c : cls)                       (* c+ , greedy *)
| Group (name : string) (alts : list (list cls)).
                     (* (?P<name>a1|a2|...), each alternative a sequence of
                        single characters *)

(** The result of a match: the named groups and the unconsumed rest. *)
Definition found := (list (string * str) * str)%type.

(** An alternative of a group against the head of the subject: the text it
    consumed and the rest. *)
Fixpoint take (alt : list cls) (s : str) : option (str * str) :=
  match alt, s with
  | [], _ => Some ([], s)
  | c :: alt', x :: s' =>
      if c x then
        match take alt' s' with
        | Some (t, r) => Some (x :: t, r)
        | None => None
        end
      else None
  | _ :: _, [] => None
  end.

(** The backtracking matcher. [pos] is the number of characters consumed
    before [s]. [$] holds at the end of the subject and just before a
    newline that is the subject's last character. A greedy [c+] first tries
    to take one more character and falls back to the shorter run; the
    alternatives of a group are tried from left to right. *)
Fixpoint match_here (p : list item) (pos : nat) (s : str) : option found :=
  match p with
  | [] => Some ([], s)
  | Bos :: p' =>
      match pos with
      | O => match_here p' pos s
      | S _ => None
      end
  | Eos :: p' =>
      match s with
      | [] => match_here p' pos s
      | [10%N] => match_here p' pos s
      | _ => None
      end
  | One c :: p' =>
      match s with
      | x :: s' => if c x then match_here p' (S pos) s' else None
      | [] => None
      end
  | Many1 c :: p' =>
      (fix many (pos : nat) (s : str) {struct s} : option found :=
         match s with
         | x :: s' =>
             if c x then
               match many (S pos) s' with
               | Some f => Some f
               | None => match_here p' (S pos) s'
               end
             else None
         | [] => None
         end) pos s
  | Group name alts :: p' =>
      (fix first (alts : list (list cls)) : option found :=
         match alts with
         | [] => None
         | alt :: alts' =>
             match take alt s with
             | Some (t, r) =>
                 match match_here p' (pos + List.length t) r with
                 | Some (groups, rest) => Some ((name, t) :: groups, rest)
                 | None => first alts'
                 end
             | None => first alts'
             end
         end) alts
  end.

(** [re.match(pattern, s)]: a match anchored at the start of [s]. *)
Definition match_ (p : list item) (s : str) : option found :=
  match_here p 0 s.

End Re.

(* ================================================================== *)
(** * class User *)
(* ================================================================== *)

Module User.

(** The mapped columns, and [salt], which is no column: it is an ordinary
    attribute that only [set_password] assigns. [password] is declared
    [String(60)] and receives a bytes object, so it is kept as a value. *)
Record t := mk {
  id : option Z;
  username : option str;
  password : value;
  email : option str;
  first_name : option str;
  last_name : option str;
  followed_users : option Z;
  users_following_me : option Z;
  salt : attr bytes
}.

(** The declarative constructor takes values for the mapped columns only:
    a new object has no [salt]. *)
Definition new (id : option Z) (username : option str) (password : value)
  (email first_name last_name : option str)
  (followed_users users_following_me : option Z) : t :=
  mk id username password email first_name last_name followed_users
     users_following_me Absent.

(** What the methods of a user can touch: the object and the operating
    system's randomness. *)
Record world := mkworld {
  self : t;
  os : os_random
}.

Definition with_email (v : option str) (u : t) : t :=
  {| id := id u; username := username u; password := password u;
     email := v; first_name := first_name u; last_name := last_name u;
     followed_users := followed_users u;
     users_following_me := users_following_me u; salt := salt u |}.

Definition with_password (v : value) (u : t) : t :=
  {| id := id u; username := username u; password := v;
     email := email u; first_name := first_name u; last_name := last_name u;
     followed_users := followed_users u;
     users_following_me := users_following_me u; salt := salt u |}.

Definition with_salt (v : attr bytes) (u : t) : t :=
  {| id := id u; username := username u; password := password u;
     email := email u; first_name := first_name u; last_name := last_name u;
     followed_users := followed_users u;
     users_following_me := users_following_me u; salt := v |}.

(** [self.x = v] *)
Definition assign (f : t -> t) : M world unit :=
  modify (fun w => {| self := f (self w); os := os w |}).

(** [self.salt] read: an [AttributeError] while it was never assigned. *)
Definition read_salt : M world bytes :=
  w <- get ;;
  match salt (self w) with
  | Present s => ret s
  | Absent => raise (AttributeError "salt")
  end.

(** [os.urandom(n)] *)
Definition os_urandom (n : nat) : M world bytes :=
  fun w => let (b, r) := urandom n (os w) in
           (Return b, {| self := self w; os := r |}).

Section Methods.

Variable U : Unicode.db.

(** [hashlib.pbkdf2_hmac(hash_name, password, salt, iterations)] *)
Variable pbkdf2_hmac : string -> bytes -> bytes -> N -> bytes.

(** [^[\w\.-]+@[\w\.-]+\.\w+$] *)
Definition regex : list Re.item :=
  let local := Re.union (Re.word U) (Re.union (Re.chr ".") (Re.chr "-")) in
  [Re.Bos; Re.Many1 local; Re.One (Re.chr "@"); Re.Many1 local;
   Re.One (Re.chr "."); Re.Many1 (Re.word U); Re.Eos].

Definition validate_email (email : str) : bool :=
  match Re.match_ regex email with
  | Some _ => true
  | None => false
  end.

Definition set_email (email : str) : M world unit :=
  if negb (validate_email email) then
    raise (ValueError "Invalid email address")
  else
    assign (with_email (Some email)).

Definition set_password (password : str) : M world unit :=
  s <- os_urandom 32 ;;
  assign (with_salt (Present s)) ;;
  pw <- encode password ;;
  salt <- read_salt ;;
  let hashed_password := pbkdf2_hmac "sha256" pw salt 100000 in
  assign (with_password (VBytes hashed_password)).

Definition check_password (password : str) : M world bool :=
  pw <- encode password ;;
  salt <- read_salt ;;
  let hashed_password := pbkdf2_hmac "sha256" pw salt 100000 in
  w <- get ;;
  ret (bytes_eq_value hashed_password (User.password (self w))).

End Methods.

Definition serialize : M world mapping :=
  w <- get ;;
  let self := self w in
  ret [ ("id", of_int (id self));
        ("username", of_str (username self));
        ("email", of_str (email self));
        ("first_name", of_str (first_name self));
        ("last_name", of_str (last_name self));
        ("followed_users", of_int (followed_users self));
        ("users_following_me", of_int (users_following_me self)) ]%string.

(** [f'<User {self.email}>'] *)
Definition __repr__ : M world str :=
  w <- get ;;
  ret (lit "<User " ++ format_str (email (self w)) ++ lit ">").

End User.

(* ================================================================== *)
(** * [datetime.strptime(_, '%d-%m-%Y')] *)
(* ================================================================== *)

Module Strptime.

Section Format.

Variable U : Unicode.db.

(** The library turns each directive into a named group:
    [%d] into [(?P<d>3[0-1]|[1-2]\d|0[1-9]|[1-9]| [1-9])],
    [%m] into [(?P<m>1[0-2]|0[1-9]|[1-9])] and
    [%Y] into [(?P<Y>\d\d\d\d)]; the hyphens of the format stand for
    themselves. *)
Definition directive_d : Re.item :=
  Re.Group "d"
    [ [Re.chr "3"; Re.range "0" "1"];
      [Re.range "1" "2"; Re.digit U];
      [Re.chr "0"; Re.range "1" "9"];
      [Re.range "1" "9"];
      [Re.chr " "; Re.range "1" "9"] ].

Definition directive_m : Re.item :=
  Re.Group "m"
    [ [Re.chr "1"; Re.range "0" "2"];
      [Re.chr "0"; Re.range "1" "9"];
      [Re.range "1" "9"] ].

Definition directive_Y : Re.item :=
  Re.Group "Y" [ [Re.digit U; Re.digit U; Re.digit U; Re.digit U] ].

Definition format_regex : list Re.item :=
  [directive_d; Re.One (Re.chr "-"); directive_m; Re.One (Re.chr "-");
   directive_Y].

(** [int(s)] on a captured group: surrounding blanks are dropped (only a
    leading space can occur in a group), then the decimal digits are read. *)
Fixpoint digits (acc : Z) (s : str) : option Z :=
  match s with
  | [] => Some acc
  | c :: s' =>
      match Unicode.decimal U c with
      | Some v => digits (10 * acc + Z.of_N v) s'
      | None => None
      end
  end.

Fixpoint lstrip (s : str) : str :=
  match s with
  | 32%N :: s' => lstrip s'
  | _ => s
  end.

Definition int (s : str) : option Z :=
  match lstrip s with
  | [] => None
  | s' => digits 0 s'
  end.

Fixpoint group (name : string) (groups : list (string * str)) : option str :=
  match groups with
  | [] => None
  | (n, v) :: rest => if String.eqb n name then Some v else group name rest
  end.

(** [datetime.date]'s range check. *)
Definition is_leap (y : Z) : bool :=
  ((y mod 4 =? 0) && (negb (y mod 100 =? 0) || (y mod 400 =? 0)))%Z.

Definition days_in_month (y m : Z) : Z :=
  (if m =? 2 then (if is_leap y then 29 else 28)
   else if (m =? 4) || (m =? 6) || (m =? 9) || (m =? 11) then 30
   else 31)%Z.

Definition check_date_fields (y m d : Z) : bool :=
  ((1 <=? y) && (y <=? 9999) && (1 <=? m) && (m <=? 12)
   && (1 <=? d) && (d <=? days_in_month y m))%Z.

(** [datetime.strptime(data_string, '%d-%m-%Y')]: match the format's regex
    at the start of the text, refuse text that is left over, convert the
    three groups and build the date at midnight. Every failure is a
    [ValueError]; the messages are abridged. *)
Definition strptime (data_string : str) : outcome datetime :=
  match Re.match_ format_regex data_string with
  | None => Raise (ValueError "time data does not match format")
  | Some (groups, rest) =>
      match rest with
      | _ :: _ => Raise (ValueError "unconverted data remains")
      | [] =>
          match option_map int (group "Y" groups),
                option_map int (group "m" groups),
                option_map int (group "d" groups) with
          | Some (Some y), Some (Some m), Some (Some d) =>
              if check_date_fields y m d then
                Return (mkdatetime y m d 0 0 0 0)
              else
                Raise (ValueError "day is out of range for month")
          | _, _, _ => Raise (ValueError "invalid literal for int()")
          end
      end
  end.

End Format.

End Strptime.

(* ================================================================== *)
(** * class Event *)
(* ================================================================== *)

Module Event.

Inductive event_type_enum := nature | party | culture | relax | family | sport.

Inductive language_enum := spanish | catalan | english | german | french.

Inductive gender_selection_enum :=
  female_only | queer_only | all_genders | no_preferences.

Inductive price_type_enum := free | paid.

(** The mapped columns. [date] is declared [Integer] and receives a
    [datetime] from [set_date], so it is kept as a value. *)
Record t := mk {
  id : option Z;
  user_owner : option Z;
  name : option str;
  type : option event_type_enum;
  date : value;
  place : option str;
  duration : option Z;
  description : option str;
  language : option language_enum;
  gender : option gender_selection_enum;
  price_type : option price_type_enum;
  price : option Z;
  min_age : option Z;
  max_age : option Z;
  min_people : option Z;
  max_people : option Z;
  lgtbi : option bool;
  pet_friendly : option bool;
  kid_friendly : option bool
}.

Definition with_date (v : value) (e : t) : t :=
  {| id := id e; user_owner := user_owner e; name := name e; type := type e;
     date := v; place := place e; duration := duration e;
     description := description e; language := language e;
     gender := gender e; price_type := price_type e; price := price e;
     min_age := min_age e; max_age := max_age e;
     min_people := min_people e; max_people := max_people e;
     lgtbi := lgtbi e; pet_friendly := pet_friendly e;
     kid_friendly := kid_friendly e |}.

Definition with_id (v : option Z) (e : t) : t :=
  {| id := v; user_owner := user_owner e; name := name e; type := type e;
     date := date e; place := place e; duration := duration e;
     description := description e; language := language e;
     gender := gender e; price_type := price_type e; price := price e;
     min_age := min_age e; max_age := max_age e;
     min_people := min_people e; max_people := max_people e;
     lgtbi := lgtbi e; pet_friendly := pet_friendly e;
     kid_friendly := kid_friendly e |}.

(** ** The table's check constraints ([__table_args__]) *)

(** [a >= b] in SQL: unknown when an operand is NULL. *)
Definition sql_ge (a b : option Z) : option bool :=
  match a, b with
  | Some x, Some y => Some (y <=? x)%Z
  | _, _ => None
  end.

Definition table_args : list (string * (t -> option bool)) :=
  [ ("event_min_age_positive",
     fun e => sql_ge (min_age e) (Some 0%Z));
    ("event_max_age_greater_than_min_age",
     fun e => sql_ge (max_age e) (min_age e));
    ("event_min_people_positive",
     fun e => sql_ge (min_people e) (Some 0%Z));
    ("event_max_people_greater_than_min_people",
     fun e => sql_ge (max_people e) (min_people e)) ]%string.

(** A row violates a check constraint when the condition is false; an
    unknown condition passes. The first violated constraint, if any: *)
Fixpoint violated (cs : list (string * (t -> option bool))) (e : t)
  : option string :=
  match cs with
  | [] => None
  | (n, c) :: cs' =>
      match c e with
      | Some false => Some n
      | _ => violated cs' e
      end
  end.

(** ** The storage collaborator ([db.session]) *)

(** The columns declared [nullable=False]. [id], the primary key, is not
    among them: the database fills it in when a row is inserted without
    one. *)
Definition filled {A} (v : option A) : bool :=
  match v with Some _ => true | None => false end.

Definition not_null (e : t) : bool :=
  filled (user_owner e) && filled (name e) && filled (type e)
  && match date e with VNone => false | _ => true end
  && filled (place e) && filled (duration e) && filled (description e)
  && filled (language e) && filled (gender e) && filled (price_type e)
  && filled (lgtbi e) && filled (pet_friendly e) && filled (kid_friendly e).

(** The requests the model issues to the session; an add is recorded with
    the object as it is when it is added. *)
Inductive call :=
| Add (row : t)
| Commit.

(** The session and the database behind it are no code of the models. The
    model keeps the requests that the session has received and takes the
    collaborator as it comes: [respond] tells, from the requests received
    so far (the commit that is being answered last) and from the object as
    it is at that moment, how the commit ends and what it leaves in the
    object. The session holds the object itself and no copy, so what a
    commit writes is the object as it is at the commit; a flush may change
    the object (it assigns the primary key), and a commit may fail for
    reasons of the database (a missing required column, a violated check,
    unique or foreign-key constraint). *)
Record session := mksession {
  calls : list call;
  respond : list call -> t -> outcome unit * t
}.

Record world := mkworld {
  self : t;
  db : session
}.

(** [db.session.add(self)] *)
Definition session_add : M world unit :=
  modify (fun w =>
    {| self := self w;
       db := {| calls := calls (db w) ++ [Add (self w)];
                respond := respond (db w) |} |}).

(** [db.session.commit()] *)
Definition session_commit : M world unit :=
  fun w =>
    let log := calls (db w) ++ [Commit] in
    let (r, e) := respond (db w) log (self w) in
    (r, {| self := e;
           db := {| calls := log; respond := respond (db w) |} |}).


(** ** The methods *)

Definition assign (f : t -> t) : M world unit :=
  modify (fun w => {| self := f (self w); db := db w |}).

Section Methods.

Variable U : Unicode.db.

(** [try: strptime(...); return True / except ValueError: return False].
    [UnicodeEncodeError] is a [ValueError]; anything else propagates. *)
Definition validate_date (date_str : str) : M world bool :=
  match Strptime.strptime U date_str with
  | Return _ => ret true
  | Raise (ValueError _) => ret false
  | Raise UnicodeEncodeError => ret false
  | Raise e => raise e
  end.

Definition set_date (date_str : str) : M world unit :=
  ok <- validate_date date_str ;;
  if negb ok then
    raise (ValueError
      "Invalid date format. Date should be in the format 'DD-MM-YYYY'")
  else
    match Strptime.strptime U date_str with
    | Return d => assign (with_date (VDateTime d))
    | Raise e => raise e
    end.

End Methods.

Definition validate_age_range : M world unit :=
  w <- get ;;
  match min_age (self w), max_age (self w) with
  | Some lo, Some hi =>
      if (lo >? hi)%Z then
        raise (ValueError "min_age must be less than or equal to max_age")
      else ret tt
  | _, _ => ret tt
  end.

Definition validate_people_range : M world unit :=
  w <- get ;;
  match min_people (self w), max_people (self w) with
  | Some lo, Some hi =>
      if (lo >? hi)%Z then
        raise (ValueError
          "min_people must be less than or equal to max_people")
      else ret tt
  | _, _ => ret tt
  end.

Definition save : M world unit :=
  validate_age_range ;;
  validate_people_range ;;
  session_add ;;
  session_commit.

(** ** Serialization *)

(** An enumerated column reads as the symbolic name of its value. *)
Definition of_enum {A} (name_of : A -> string) (v : option A) : value :=
  match v with Some a => VStr (lit (name_of a)) | None => VNone end.

Definition event_type_name (x : event_type_enum) : string :=
  match x with
  | nature => "nature" | party => "party" | culture => "culture"
  | relax => "relax" | family => "family" | sport => "sport"
  end.

Definition language_name (x : language_enum) : string :=
  match x with
  | spanish => "spanish" | catalan => "catalan" | english => "english"
  | german => "german" | french => "french"
  end.

Definition gender_name (x : gender_selection_enum) : string :=
  match x with
  | female_only => "female_only" | queer_only => "queer_only"
  | all_genders => "all_genders" | no_preferences => "no_preferences"
  end.

Definition price_type_name (x : price_type_enum) : string :=
  match x with free => "free" | paid => "paid" end.

Definition serialize : M world mapping :=
  w <- get ;;
  let self := self w in
  ret [ ("id", of_int (id self));
        ("user_owner", of_int (user_owner self));
        ("name", of_str (name self));
        ("type", of_enum event_type_name (type self));
        ("date", date self);
        ("place", of_str (place self));
        ("duration", of_int (duration self));
        ("description", of_str (description self));
        ("language", of_enum language_name (language self));
        ("gender", of_enum gender_name (gender self));
        ("price_type", of_enum price_type_name (price_type self));
        ("price", of_int (price self));
        ("min_age", of_int (min_age self));
        ("max_age", of_int (max_age self));
        ("min_people", of_int (min_people self));
        ("max_people", of_int (max_people self));
        ("lgtbi", of_bool (lgtbi self));
        ("pet_friendly", of_bool (pet_friendly self));
        ("kid_friendly", of_bool (kid_friendly self)) ]%string.

(** [f'<Event {self.name}>'] *)
Definition __repr__ : M world str :=
  w <- get ;;
  ret (lit "<Event " ++ format_str (name (self w)) ++ lit ">").

End Event.

(* ================================================================== *)
(** * class Signedup_events *)
(* ================================================================== *)

Module Signedup_events.

Record t := mk {
  id : option Z;
  user_id : option Z;
  event_id : option Z
}.

Definition serialize : M t mapping :=
  self <- get ;;
  ret [ ("id", of_int (id self));
        ("user_id", of_int (user_id self));
        ("event_id", of_int (event_id self)) ]%string.

End Signedup_events.

(* ================================================================== *)
(** * Sample data *)
(* ================================================================== *)

Module Samples.

(** A character database that knows nothing beyond Latin-1. *)
Definition plain_db : Unicode.db :=
  Unicode.mkdb (fun _ => false) (fun _ => None).

(** A stand-in for the key derivation, with nothing cryptographic about it:
    the salt followed by the password. *)
Definition concat_kdf (hash_name : string) (password salt : bytes)
  (iterations : N) : bytes :=
  salt ++ password.

(** A randomness supply that hands out the same byte for ever. *)
Definition stuck_entropy : os_random :=
  {| entropy := fun _ => x00; drawn := 0 |}.

(** A supply whose bytes count upwards. *)
Definition counting_entropy : os_random :=
  {| entropy := fun n => byte_of_N (N.of_nat n); drawn := 0 |}.

Definition hunter2 : str := lit "hunter2".

Definition wrong : str := lit "wrong".

(** A string that holds one lone surrogate, U+D800. *)
Definition lone_surrogate : str := [0xD800%N].

(** A user just constructed, with no column filled in. *)
Definition nobody : User.t :=
  User.new None None VNone None None None None None.

(** An event with nothing but its four bounds filled in. *)
Definition bounds (min_age max_age min_people max_people : option Z)
  : Event.t :=
  Event.mk None None None None VNone None None None None None None None
    min_age max_age min_people max_people None None None.


(** A stand-in for the database: a commit that directly follows an add
    refuses an object with a required column missing or a check constraint
    violated, and otherwise returns after numbering an object that has no
    [id]; any other commit returns and leaves the object alone. *)
Definition checking_respond (log : list Event.call) (e : Event.t)
  : outcome unit * Event.t :=
  match rev log with
  | Event.Commit :: Event.Add _ :: _ =>
      if Event.not_null e then
        match Event.violated Event.table_args e with
        | Some n => (Raise (IntegrityError n), e)
        | None =>
            (Return tt,
             match Event.id e with
             | Some _ => e
             | None =>
                 Event.with_id (Some (Z.of_nat (List.length log))) e
             end)
        end
      else (Raise (IntegrityError "NOT NULL constraint failed"), e)
  | _ => (Return tt, e)
  end.

(** A session on it that has received nothing yet. *)
Definition strict : Event.session := Event.mksession [] checking_respond.

End Samples.

(* ================================================================== *)
(** * Properties of User *)
(* ================================================================== *)

Module UserProps.

Import User.

(** ** Histories *)

(** The methods a caller can invoke on a user. *)
Inductive op :=
| SetEmail (email : str)
| SetPassword (password : str)
| CheckPassword (password : str)
| Serialize.

Definition is_set_password (o : op) : bool :=
  match o with SetPassword _ => true | _ => false end.

Section Histories.

Variable U : Unicode.db.
Variable pbkdf2_hmac : string -> bytes -> bytes -> N -> bytes.

(** The state a call leaves, whatever it returned or raised (the caller may
    catch the exception and go on). *)
Definition step (w : world) (o : op) : world :=
  match o with
  | SetEmail e => snd (set_email U e w)
  | SetPassword p => snd (set_password pbkdf2_hmac p w)
  | CheckPassword c => snd (check_password pbkdf2_hmac c w)
  | Serialize => snd (serialize w)
  end.

Definition run (ops : list op) (w : world) : world := fold_left step ops w.

End Histories.

(** ** Comparison of bytes *)

Lemma bytes_eqb_refl (b : bytes) : bytes_eqb b b = true.
Proof.
  induction b as [|x b IH]; simpl; [reflexivity|].
  rewrite IH, andb_true_r. apply Byte.byte_dec_lb. reflexivity.
Qed.

Lemma bytes_eqb_eq (a b : bytes) : bytes_eqb a b = true <-> a = b.
Proof.
  split.
  - revert b. induction a as [|x a IH]; intros [|y b] H; simpl in H;
      try discriminate; [reflexivity|].
    apply andb_true_iff in H. destruct H as [Hxy Hab].
    apply Byte.byte_dec_bl in Hxy. apply IH in Hab. congruence.
  - intros ->. apply bytes_eqb_refl.
Qed.

Lemma bytes_eqb_neq (a b : bytes) : a <> b -> bytes_eqb a b = false.
Proof.
  intro H. destruct (bytes_eqb a b) eqn:E; [|reflexivity].
  apply bytes_eqb_eq in E. contradiction.
Qed.

(** ** What one call does *)

Section Calls.

Variable U : Unicode.db.
Variable pbkdf2_hmac : string -> bytes -> bytes -> N -> bytes.

Local Abbreviation kdf pw s := (pbkdf2_hmac "sha256" pw s 100000%N).

(** The salt that the next [set_password] will draw. *)
Definition next_salt (w : world) : bytes := fst (urandom 32 (os w)).

Lemma next_salt_length (w : world) : List.length (next_salt w) = 32.
Proof.
  unfold next_salt, urandom. cbn [fst].
  rewrite length_map, length_seq. reflexivity.
Qed.

(** [set_password] on a plaintext that encodes: it returns, having stored
    the salt it drew and the key derived under it. *)
Lemma set_password_encodable (p : str) (pb : bytes) (w : world) :
  encode_utf8 p = Some pb ->
  set_password pbkdf2_hmac p w =
    (Return tt,
     {| self := with_password (VBytes (kdf pb (next_salt w)))
                  (with_salt (Present (next_salt w)) (self w));
        os := snd (urandom 32 (os w)) |}).
Proof.
  intro Hp. unfold set_password, next_salt, bind, os_urandom, assign, modify,
    encode, read_salt, get.
  destruct (urandom 32 (os w)) as [s r]. cbn. rewrite Hp. reflexivity.
Qed.

(** On a plaintext that does not encode it raises, and the new salt stays
    while the stored password is the old one. *)
Lemma set_password_unencodable (p : str) (w : world) :
  encode_utf8 p = None ->
  set_password pbkdf2_hmac p w =
    (Raise UnicodeEncodeError,
     {| self := with_salt (Present (next_salt w)) (self w);
        os := snd (urandom 32 (os w)) |}).
Proof.
  intro Hp. unfold set_password, next_salt, bind, os_urandom, assign, modify,
    encode, read_salt, get.
  destruct (urandom 32 (os w)) as [s r]. cbn. rewrite Hp. reflexivity.
Qed.

(** [check_password], by cases on the candidate and on the salt. The
    candidate is encoded before [self.salt] is read. *)
Lemma check_password_cases (c : str) (w : world) :
  check_password pbkdf2_hmac c w =
    match encode_utf8 c, salt (self w) with
    | None, _ => (Raise UnicodeEncodeError, w)
    | Some _, Absent => (Raise (AttributeError "salt"), w)
    | Some cb, Present s =>
        (Return (bytes_eq_value (kdf cb s) (password (self w))), w)
    end.
Proof.
  cbv [check_password bind encode read_salt get ret raise].
  destruct (encode_utf8 c) as [cb|]; [|reflexivity].
  destruct (salt (self w)) as [|s]; reflexivity.
Qed.

Lemma set_email_cases (e : str) (w : world) :
  set_email U e w =
    if validate_email U e
    then (Return tt, {| self := with_email (Some e) (self w); os := os w |})
    else (Raise (ValueError "Invalid email address"), w).
Proof.
  unfold set_email. destruct (validate_email U e); reflexivity.
Qed.

(** Only [set_password] assigns the salt. *)
Lemma step_keeps_salt (w : world) (o : op) :
  is_set_password o = false ->
  salt (self (step U pbkdf2_hmac w o)) = salt (self w).
Proof.
  destruct o as [e|p|c|]; intro H; try discriminate H; cbn [step].
  - rewrite set_email_cases. destruct (validate_email U e); reflexivity.
  - rewrite check_password_cases.
    destruct (encode_utf8 c); [destruct (salt (self w)) eqn:E|];
      cbn [snd]; congruence.
  - reflexivity.
Qed.

Lemma run_keeps_salt (ops : list op) (w : world) :
  forallb (fun o => negb (is_set_password o)) ops = true ->
  salt (self (run U pbkdf2_hmac ops w)) = salt (self w).
Proof.
  unfold run. revert w.
  induction ops as [|o ops IH]; intros w H; [reflexivity|].
  cbn in H. apply andb_true_iff in H. destruct H as [Ho Hops].
  cbn [fold_left]. rewrite (IH _ Hops). apply step_keeps_salt.
  now apply negb_true_iff.
Qed.

(** ** The setters and the password check *)

(** C7. [set_email] raises the invalid-format error when [validate_email]
    rejects the candidate and then leaves the email, every other field and
    the rest of the state as they were; when [validate_email] accepts the
    candidate it returns with the candidate in the email field and nothing
    else changed. *)
Theorem set_email_commits_or_raises (e : str) (w : world) :
  (validate_email U e = false ->
   set_email U e w = (Raise (ValueError "Invalid email address"), w)) /\
  (validate_email U e = true ->
   exists w',
     set_email U e w = (Return tt, w') /\
     email (self w') = Some e /\
     id (self w') = id (self w) /\
     username (self w') = username (self w) /\
     password (self w') = password (self w) /\
     first_name (self w') = first_name (self w) /\
     last_name (self w') = last_name (self w) /\
     followed_users (self w') = followed_users (self w) /\
     users_following_me (self w') = users_following_me (self w) /\
     salt (self w') = salt (self w) /\
     os w' = os w).
Proof.
  rewrite set_email_cases. split; intros ->; [reflexivity|].
  eexists. split; [reflexivity|]. cbn. repeat split.
Qed.

(** [set_password] returns exactly on the plaintexts that encode. *)
Lemma set_password_returns (p : str) (w w' : world) :
  set_password pbkdf2_hmac p w = (Return tt, w') ->
  exists pb,
    encode_utf8 p = Some pb /\
    w' = {| self := with_password (VBytes (kdf pb (next_salt w)))
                      (with_salt (Present (next_salt w)) (self w));
            os := snd (urandom 32 (os w)) |}.
Proof.
  intro H. destruct (encode_utf8 p) as [pb|] eqn:Hp.
  - rewrite (set_password_encodable p pb w Hp) in H.
    exists pb. split; [reflexivity|]. congruence.
  - rewrite (set_password_unencodable p w Hp) in H. discriminate H.
Qed.

(** C1. After [set_password p] has returned, [check_password p] returns
    true. The user then holds a salt and, as password, the bytes of a hash;
    for every candidate [c], [check_password c] returns false when the
    PBKDF2-HMAC-SHA256 key (100000 iterations) of the UTF-8 encoding of [c]
    under the stored salt differs from the stored hash, and true when it
    equals it. *)
Theorem check_password_after_set_password (p : str) (w w' : world) :
  set_password pbkdf2_hmac p w = (Return tt, w') ->
  check_password pbkdf2_hmac p w' = (Return true, w') /\
  exists s h,
    salt (self w') = Present s /\
    password (self w') = VBytes h /\
    forall c cb, encode_utf8 c = Some cb ->
      (kdf cb s <> h -> check_password pbkdf2_hmac c w' = (Return false, w')) /\
      (kdf cb s = h -> check_password pbkdf2_hmac c w' = (Return true, w')).
Proof.
  intro H. apply set_password_returns in H. destruct H as (pb & Hp & ->).
  split.
  - rewrite check_password_cases, Hp.
    cbn [self salt password with_password with_salt bytes_eq_value].
    now rewrite bytes_eqb_refl.
  - exists (next_salt w), (kdf pb (next_salt w)).
    split; [reflexivity|]. split; [reflexivity|].
    intros c cb Hc. rewrite check_password_cases, Hc.
    cbn [self salt password with_password with_salt bytes_eq_value].
    split; [intro Hne | intro He].
    + now rewrite (bytes_eqb_neq _ _ Hne).
    + now rewrite He, bytes_eqb_refl.
Qed.

(** C4, as amended. For a plaintext that encodes to UTF-8, two successive
    [set_password] calls both return; each draws its own 32 bytes from the
    operating system (the second draw continues where the first ended) and
    stores them as salt together with the key derived under them, and after
    each call [check_password] on the plaintext returns true. The two stored
    hashes differ exactly when the key derivation tells the two salts
    apart. *)
Theorem set_password_twice (p : str) (pb : bytes) (w : world) :
  encode_utf8 p = Some pb ->
  exists w1 w2 s1 s2,
    set_password pbkdf2_hmac p w = (Return tt, w1) /\
    set_password pbkdf2_hmac p w1 = (Return tt, w2) /\
    s1 = map (entropy (os w)) (seq (drawn (os w)) 32) /\
    s2 = map (entropy (os w)) (seq (drawn (os w) + 32) 32) /\
    List.length s1 = 32 /\ List.length s2 = 32 /\
    salt (self w1) = Present s1 /\ salt (self w2) = Present s2 /\
    password (self w1) = VBytes (kdf pb s1) /\
    password (self w2) = VBytes (kdf pb s2) /\
    check_password pbkdf2_hmac p w1 = (Return true, w1) /\
    check_password pbkdf2_hmac p w2 = (Return true, w2) /\
    (password (self w1) <> password (self w2) <-> kdf pb s1 <> kdf pb s2).
Proof.
  intro Hp.
  pose proof (set_password_encodable p pb w Hp) as H1.
  set (w1 := {| self := _; os := _ |}) in H1.
  pose proof (set_password_encodable p pb w1 Hp) as H2.
  set (w2 := {| self := _; os := _ |}) in H2.
  exists w1, w2, (next_salt w), (next_salt w1).
  split; [exact H1|]. split; [exact H2|].
  split; [reflexivity|]. split; [reflexivity|].
  split; [apply next_salt_length|]. split; [apply next_salt_length|].
  split; [reflexivity|]. split; [reflexivity|].
  split; [reflexivity|]. split; [reflexivity|].
  split; [|split].
  - rewrite check_password_cases, Hp.
    cbn [w1 self salt password with_password with_salt bytes_eq_value].
    now rewrite bytes_eqb_refl.
  - rewrite check_password_cases, Hp.
    cbn [w2 self salt password with_password with_salt bytes_eq_value].
    now rewrite bytes_eqb_refl.
  - cbn [w1 w2 self password with_password].
    split; intros H E; apply H; congruence.
Qed.

(** C10, as amended. On a user whose [salt] was never assigned (an object as
    constructed, after any calls other than [set_password]),
    [check_password] returns neither false nor true and changes nothing: it
    raises the attribute error for [salt] when the candidate encodes to
    UTF-8, and the encoding error, raised before [salt] is read, when the
    candidate does not. *)
Theorem check_password_before_set_password
  (ops : list op) (u : t) (r : os_random) (c : str) :
  salt u = Absent ->
  forallb (fun o => negb (is_set_password o)) ops = true ->
  let w := run U pbkdf2_hmac ops {| self := u; os := r |} in
  (forall b, fst (check_password pbkdf2_hmac c w) <> Return b) /\
  snd (check_password pbkdf2_hmac c w) = w /\
  (forall cb, encode_utf8 c = Some cb ->
     check_password pbkdf2_hmac c w = (Raise (AttributeError "salt"), w)) /\
  (encode_utf8 c = None ->
     check_password pbkdf2_hmac c w = (Raise UnicodeEncodeError, w)).
Proof.
  intros Hu Hops w.
  assert (Hw : salt (self w) = Absent).
  { unfold w. rewrite (run_keeps_salt _ _ Hops). exact Hu. }
  rewrite check_password_cases, Hw.
  destruct (encode_utf8 c) as [cb|]; cbn; repeat split;
    try discriminate; try reflexivity; intros; discriminate.
Qed.

(** Once the salt is there, the check returns a boolean for every candidate
    that encodes. *)
Lemma check_password_returns (c : str) (cb s : bytes) (w : world) :
  encode_utf8 c = Some cb ->
  salt (self w) = Present s ->
  exists b, check_password pbkdf2_hmac c w = (Return b, w).
Proof.
  intros Hc Hs. rewrite check_password_cases, Hc, Hs. eexists. reflexivity.
Qed.

End Calls.

(** ** Instances *)

Import Samples.

Definition w0 : world := {| self := nobody; os := counting_entropy |}.

Definition a_history : list op :=
  [SetEmail (lit "a.b@c.org"); CheckPassword hunter2; Serialize;
   SetEmail (lit "not-an-email")].

(** C7 at an address that is refused and at one that is accepted. *)
Lemma set_email_commits_or_raises_witness :
  set_email plain_db (lit "not-an-email") w0 =
    (Raise (ValueError "Invalid email address"), w0) /\
  exists w', set_email plain_db (lit "a.b@c.org") w0 = (Return tt, w') /\
             email (self w') = Some (lit "a.b@c.org").
Proof.
  split.
  - apply (proj1 (set_email_commits_or_raises plain_db
                    (lit "not-an-email") w0)).
    reflexivity.
  - destruct (proj2 (set_email_commits_or_raises plain_db
                       (lit "a.b@c.org") w0) eq_refl)
      as (w' & Hrun & Hemail & _).
    exists w'. split; assumption.
Defined.

(** C1 at the plaintext hunter2 and the candidate wrong. *)
Lemma check_password_after_set_password_witness :
  check_password concat_kdf hunter2 (snd (set_password concat_kdf hunter2 w0))
  = (Return true, snd (set_password concat_kdf hunter2 w0)) /\
  check_password concat_kdf wrong (snd (set_password concat_kdf hunter2 w0))
  = (Return false, snd (set_password concat_kdf hunter2 w0)).
Proof.
  destruct (check_password_after_set_password concat_kdf hunter2 w0
              (snd (set_password concat_kdf hunter2 w0)) eq_refl)
    as (Hsame & s & h & Hs & Hh & Hother).
  split; [exact Hsame|].
  apply (Hother wrong _ eq_refl).
  injection Hs as <-. injection Hh as <-.
  intro E. vm_compute in E. discriminate E.
Defined.

(** C4 as stated fails when the operating system hands out the same bytes
    twice: whatever the key derivation, the two calls then store the same
    hash for the plaintext hunter2. *)
Lemma set_password_twice_same_hash :
  encode_utf8 hunter2 <> None /\
  forall pbkdf2_hmac u, exists w1 w2,
    set_password pbkdf2_hmac hunter2 {| self := u; os := stuck_entropy |}
      = (Return tt, w1) /\
    set_password pbkdf2_hmac hunter2 w1 = (Return tt, w2) /\
    password (self w1) = password (self w2).
Proof.
  split; [discriminate|]. intros pbkdf2_hmac u.
  eexists. eexists.
  split; [apply (set_password_encodable pbkdf2_hmac hunter2 _ _ eq_refl)|].
  split; [apply (set_password_encodable pbkdf2_hmac hunter2 _ _ eq_refl)|].
  reflexivity.
Qed.

(** C4 as amended, where the supply yields different bytes for the two
    salts and the stand-in derivation tells them apart. *)
Lemma set_password_twice_witness :
  exists w1 w2,
    set_password concat_kdf hunter2 w0 = (Return tt, w1) /\
    set_password concat_kdf hunter2 w1 = (Return tt, w2) /\
    check_password concat_kdf hunter2 w1 = (Return true, w1) /\
    check_password concat_kdf hunter2 w2 = (Return true, w2) /\
    password (self w1) <> password (self w2).
Proof.
  destruct (set_password_twice concat_kdf hunter2 _ w0 eq_refl)
    as (w1 & w2 & s1 & s2 & H1 & H2 & Hs1 & Hs2 & _ & _ & _ & _ & _ & _
        & Hc1 & Hc2 & Hdiff).
  exists w1, w2. repeat (split; [assumption|]).
  apply Hdiff. subst s1 s2. intro E. vm_compute in E. discriminate E.
Defined.

(** C10 as stated fails at a candidate that holds a lone surrogate: on a
    user without salt the check raises the encoding error, not the
    attribute error. *)
Lemma check_password_surrogate_before_set_password :
  salt nobody = Absent /\
  forall pbkdf2_hmac r,
    check_password pbkdf2_hmac lone_surrogate {| self := nobody; os := r |}
    = (Raise UnicodeEncodeError, {| self := nobody; os := r |}).
Proof.
  split; [reflexivity|]. intros pbkdf2_hmac r.
  rewrite check_password_cases. reflexivity.
Qed.

(** C10 as amended, after a history without [set_password]. *)
Lemma check_password_before_set_password_witness :
  fst (check_password concat_kdf hunter2 (run plain_db concat_kdf a_history w0))
  = Raise (AttributeError "salt").
Proof.
  destruct (check_password_before_set_password plain_db concat_kdf a_history
              nobody counting_entropy hunter2 eq_refl eq_refl)
    as (_ & _ & Hattr & _).
  unfold w0. rewrite (Hattr _ eq_refl). reflexivity.
Defined.

End UserProps.

(* ================================================================== *)
(** * Properties of the matcher and of validate_email *)
(* ================================================================== *)

Module EmailProps.

Import Re User.

(** Whether [re.match] found something ([is not None]). *)
Definition matched (o : option found) : bool :=
  match o with Some _ => true | None => false end.

(** The greedy repetition on its own, with the rest of the pattern as a
    continuation. *)
Fixpoint many (c : cls) (k : nat -> str -> option found) (pos : nat) (s : str)
  : option found :=
  match s with
  | x :: s' =>
      if c x then
        match many c k (S pos) s' with
        | Some f => Some f
        | None => k (S pos) s'
        end
      else None
  | [] => None
  end.

Lemma match_here_many1 (c : cls) (p : list item) (pos : nat) (s : str) :
  match_here (Many1 c :: p) pos s = many c (match_here p) pos s.
Proof.
  revert pos. induction s as [|x s IH]; intro pos; [reflexivity|].
  cbn [match_here many] in *. destruct (c x); [|reflexivity].
  rewrite IH. reflexivity.
Qed.

(** A repetition matches exactly when some non-empty run of the class can be
    split off such that the rest of the pattern matches what follows. *)
Lemma matched_many (c : cls) (k : nat -> str -> option found) (s : str) :
  forall pos,
    matched (many c k pos s) = true <->
    exists pre post,
      s = pre ++ post /\ pre <> [] /\ forallb c pre = true /\
      matched (k (pos + List.length pre) post) = true.
Proof.
  induction s as [|x s IH]; intro pos.
  - split; [discriminate|].
    intros (pre & post & Hs & Hne & _). destruct pre; [contradiction|].
    discriminate Hs.
  - cbn [many]. split.
    + destruct (c x) eqn:Hx; [|discriminate].
      destruct (many c k (S pos) s) as [f|] eqn:Hm.
      * intros _.
        destruct (proj1 (IH (S pos))) as (pre & post & Hs & _ & Hall & Hk).
        { rewrite Hm. reflexivity. }
        exists (x :: pre), post. cbn [forallb List.length app].
        rewrite Hx, Hall, Nat.add_succ_r. subst s.
        repeat split; [discriminate | exact Hk].
      * intro Hk. exists [x], s. cbn [forallb List.length app].
        rewrite Hx, Nat.add_1_r. repeat split; [discriminate | exact Hk].
    + intros (pre & post & Hs & Hne & Hall & Hk).
      destruct pre as [|y pre]; [contradiction|].
      cbn [app] in Hs. injection Hs as <- ->.
      cbn [forallb] in Hall. apply andb_true_iff in Hall.
      destruct Hall as [Hx Hall]. rewrite Hx.
      cbn [List.length] in Hk. rewrite Nat.add_succ_r in Hk.
      destruct pre as [|z pre].
      * cbn [app List.length] in *. rewrite Nat.add_0_r in Hk.
        destruct (many c k (S pos) post); [reflexivity | exact Hk].
      * assert (Hm : matched (many c k (S pos) ((z :: pre) ++ post)) = true).
        { apply IH. exists (z :: pre), post.
          repeat split; [discriminate | exact Hall | exact Hk]. }
        destruct (many c k (S pos) ((z :: pre) ++ post));
          [reflexivity | discriminate Hm].
Qed.

Lemma matched_one (c : cls) (p : list item) (pos : nat) (s : str) :
  matched (match_here (One c :: p) pos s) = true <->
  exists x s', s = x :: s' /\ c x = true /\
               matched (match_here p (S pos) s') = true.
Proof.
  cbn [match_here]. destruct s as [|x s].
  - split; [discriminate | intros (? & ? & H & _); discriminate H].
  - split.
    + destruct (c x) eqn:Hx; [|discriminate].
      intro H. exists x, s. auto.
    + intros (y & s' & Hs & Hy & H). injection Hs as <- <-.
      rewrite Hy. exact H.
Qed.

Lemma matched_eos (pos : nat) (s : str) :
  matched (match_here [Eos] pos s) = true <-> s = [] \/ s = [10%N].
Proof.
  cbn [match_here]. split.
  - destruct s as [|x [|y s]]; [auto | | ].
    + destruct x as [|q]; [discriminate|].
      do 4 (destruct q as [q|q|]; try discriminate). auto.
    + destruct x as [|q]; [discriminate|].
      do 4 (destruct q as [q|q|]; try discriminate).
  - intros [-> | ->]; reflexivity.
Qed.

(** ** The shape of an accepted address *)

(** The class of the local and of the domain part: a word character, a dot
    or a hyphen. *)
Definition part (w : cls) : cls := union w (union (chr ".") (chr "-")).

(** [local@domain.tld] over a notion [w] of word character: a non-empty
    local part, an at sign, a non-empty domain part, a dot, and a non-empty
    last segment of word characters, and nothing else. *)
Definition email_shape (w : cls) (s : str) : Prop :=
  exists l d t,
    s = l ++ 64%N :: d ++ 46%N :: t /\
    l <> [] /\ d <> [] /\ t <> [] /\
    forallb (part w) l = true /\
    forallb (part w) d = true /\
    forallb w t = true.

(** The pattern as the specification reads it: ASCII word characters. *)
Definition ascii_word : cls :=
  fun c => Unicode.ascii_alnum c || (c =? 95)%N.

Definition spec_pattern (s : str) : Prop := email_shape ascii_word s.

Lemma chr_true (a : ascii) (x : N) : chr a x = true -> x = N_of_ascii a.
Proof. unfold chr. apply N.eqb_eq. Qed.

(** What [validate_email] accepts: the shape, possibly followed by one
    newline. *)
Lemma validate_email_iff (U : Unicode.db) (s : str) :
  validate_email U s = true <->
  exists tail, (tail = [] \/ tail = [10%N]) /\
    exists l d t,
      s = l ++ 64%N :: d ++ 46%N :: t ++ tail /\
      l <> [] /\ d <> [] /\ t <> [] /\
      forallb (part (word U)) l = true /\
      forallb (part (word U)) d = true /\
      forallb (word U) t = true.
Proof.
  unfold validate_email, match_, regex.
  match goal with
  | |- (match ?o with Some _ => true | None => false end) = true <-> _ =>
      change (matched o = true <-> exists tail, (tail = [] \/ tail = [10%N]) /\
        exists l d t,
          s = l ++ 64%N :: d ++ 46%N :: t ++ tail /\
          l <> [] /\ d <> [] /\ t <> [] /\
          forallb (part (word U)) l = true /\
          forallb (part (word U)) d = true /\
          forallb (word U) t = true)
  end.
  change (match_here (Bos :: ?p) 0 s) with (match_here p 0 s).
  fold (part (word U)).
  rewrite match_here_many1. split.
  - intro H.
    apply matched_many in H. destruct H as (l & r1 & -> & Hl & Hall_l & H).
    apply matched_one in H. destruct H as (x & r2 & -> & Hx & H).
    apply chr_true in Hx. subst x.
    rewrite match_here_many1 in H.
    apply matched_many in H. destruct H as (d & r3 & -> & Hd & Hall_d & H).
    apply matched_one in H. destruct H as (y & r4 & -> & Hy & H).
    apply chr_true in Hy. subst y.
    rewrite match_here_many1 in H.
    apply matched_many in H. destruct H as (t & tail & -> & Ht & Hall_t & H).
    apply matched_eos in H.
    exists tail. split; [exact H|]. exists l, d, t. repeat split; assumption.
  - intros (tail & Htail & l & d & t & -> & Hl & Hd & Ht & Hall_l & Hall_d & Hall_t).
    apply matched_many. exists l, (64%N :: d ++ 46%N :: t ++ tail).
    repeat split; try assumption.
    apply matched_one. exists 64%N, (d ++ 46%N :: t ++ tail).
    repeat split. rewrite match_here_many1.
    apply matched_many. exists d, (46%N :: t ++ tail).
    repeat split; try assumption.
    apply matched_one. exists 46%N, (t ++ tail).
    repeat split. rewrite match_here_many1.
    apply matched_many. exists t, tail.
    repeat split; try assumption.
    apply matched_eos. exact Htail.
Qed.

(** The characters of a shaped string: word characters, dots, hyphens and
    the at sign. *)
Lemma email_shape_chars (w : cls) (s : str) :
  email_shape w s ->
  forallb (fun c => part w c || (c =? 64)%N) s = true.
Proof.
  intros (l & d & t & -> & _ & _ & _ & Hl & Hd & Ht).
  assert (Hweak : forall q, forallb (part w) q = true ->
            forallb (fun c => part w c || (c =? 64)%N) q = true).
  { intros q Hq. rewrite forallb_forall in *. intros x Hx.
    rewrite (Hq x Hx). reflexivity. }
  assert (Hword : forallb (fun c => part w c || (c =? 64)%N) t = true).
  { rewrite forallb_forall in *. intros x Hx.
    unfold part, union. rewrite (Ht x Hx). reflexivity. }
  rewrite forallb_app. cbn [forallb]. rewrite forallb_app. cbn [forallb].
  rewrite (Hweak l Hl), (Hweak d Hd), Hword.
  unfold part, union, chr. cbn. rewrite !orb_true_r. reflexivity.
Qed.

Lemma email_shape_at_dot (w : cls) (s : str) :
  email_shape w s -> In 64%N s /\ In 46%N s.
Proof.
  intros (l & d & t & -> & _). split; apply in_or_app; right.
  - left. reflexivity.
  - right. apply in_or_app. right. left. reflexivity.
Qed.

(** On ASCII text the two notions of word character agree. *)
Lemma email_shape_ascii (U : Unicode.db) (s : str) :
  forallb (fun c => c <? 0x80)%N s = true ->
  (email_shape (word U) s <-> spec_pattern s).
Proof.
  intro Hs.
  assert (Hw : forall c, (c <? 0x80)%N = true -> word U c = ascii_word c).
  { intros c Hc. unfold word, ascii_word, Unicode.isalnum. now rewrite Hc. }
  assert (Hsame : forall q, forallb (fun c => c <? 0x80)%N q = true ->
            forallb (word U) q = forallb ascii_word q /\
            forallb (part (word U)) q = forallb (part ascii_word) q).
  { induction q as [|c q IH]; [split; reflexivity|].
    cbn [forallb]. intro H. apply andb_true_iff in H. destruct H as [Hc Hq].
    destruct (IH Hq) as [IH1 IH2]. unfold part, union in *.
    rewrite IH1, IH2, (Hw c Hc). split; reflexivity. }
  unfold spec_pattern.
  split; intros (l & d & t & -> & Hl & Hd & Ht & Hal & Had & Hat);
    rewrite forallb_app in Hs; cbn [forallb] in Hs;
    rewrite forallb_app in Hs; cbn [forallb] in Hs;
    apply andb_true_iff in Hs; destruct Hs as [Hsl Hs];
    apply andb_true_iff in Hs; destruct Hs as [_ Hs];
    apply andb_true_iff in Hs; destruct Hs as [Hsd Hs];
    apply andb_true_iff in Hs; destruct Hs as [_ Hst];
    destruct (Hsame l Hsl) as [_ El]; destruct (Hsame d Hsd) as [_ Ed];
    destruct (Hsame t Hst) as [Et _];
    exists l, d, t; repeat split; try assumption; congruence.
Qed.

Lemma shaped_with_newline_last (l d t : str) :
  last (l ++ 64%N :: d ++ 46%N :: t ++ [10%N]) 0%N = 10%N.
Proof.
  replace (l ++ 64%N :: d ++ 46%N :: t ++ [10%N])
    with ((l ++ 64%N :: d ++ 46%N :: t) ++ [10%N]).
  - apply last_last.
  - repeat (rewrite <- app_assoc; cbn [app]). reflexivity.
Qed.

(** C3, as amended. For a string that does not end in a newline,
    [validate_email] is true exactly when the string is a non-empty run of
    word characters, dots and hyphens, an at sign, a second such run, a dot
    and a non-empty run of word characters, a word character being an
    alphanumeric character in the Unicode sense or the underscore; on such a
    string made of ASCII characters only this is the pattern read with ASCII
    word characters. A string without an at sign or without a dot is
    refused; [a.b@c.org] is accepted and [not-an-email] is refused. *)
Theorem validate_email_shape (U : Unicode.db) (s : str) :
  (last s 0%N <> 10%N ->
   (validate_email U s = true <-> email_shape (word U) s)) /\
  (last s 0%N <> 10%N -> forallb (fun c => c <? 0x80)%N s = true ->
   (validate_email U s = true <-> spec_pattern s)) /\
  (~ In 64%N s \/ ~ In 46%N s -> validate_email U s = false) /\
  validate_email U (lit "a.b@c.org") = true /\
  validate_email U (lit "not-an-email") = false.
Proof.
  assert (Hshape : last s 0%N <> 10%N ->
            (validate_email U s = true <-> email_shape (word U) s)).
  { intro Hlast. rewrite validate_email_iff. split.
    - intros (tail & [-> | ->] & l & d & t & Hs & H).
      + rewrite app_nil_r in Hs. exists l, d, t. split; assumption.
      + subst s. rewrite shaped_with_newline_last in Hlast. contradiction.
    - intros (l & d & t & Hs & H). exists []. split; [left; reflexivity|].
      exists l, d, t. rewrite app_nil_r. split; assumption. }
  split; [exact Hshape|].
  split; [intros Hlast Hascii; rewrite (Hshape Hlast);
          apply email_shape_ascii; exact Hascii|].
  split; [|split; reflexivity].
  intro Hlack. destruct (validate_email U s) eqn:E; [|reflexivity].
  exfalso. apply validate_email_iff in E.
  destruct E as (tail & _ & l & d & t & -> & _).
  assert (H64 : In 64%N (l ++ 64%N :: d ++ 46%N :: t ++ tail)).
  { apply in_or_app. right. left. reflexivity. }
  assert (H46 : In 46%N (l ++ 64%N :: d ++ 46%N :: t ++ tail)).
  { apply in_or_app. right. right. apply in_or_app. right. left.
    reflexivity. }
  destruct Hlack as [Hno | Hno]; contradiction.
Qed.

(** C3 at an accepted address. *)
Lemma validate_email_shape_witness :
  validate_email Samples.plain_db (lit "a.b@c.org") = true <->
  email_shape (word Samples.plain_db) (lit "a.b@c.org").
Proof.
  apply (proj1 (validate_email_shape Samples.plain_db (lit "a.b@c.org"))).
  vm_compute. discriminate.
Defined.

(** C3 as stated fails in two ways. A letter outside ASCII counts as a word
    character: the address with local part U+00F1 is accepted, whatever the
    database says beyond Latin-1. And the end anchor also holds before a
    final newline: an address followed by a newline is accepted. Neither
    string matches the pattern read with ASCII word characters. *)
Lemma validate_email_beyond_ascii_pattern :
  (forall U, validate_email U (0xF1%N :: lit "@b.c") = true) /\
  ~ spec_pattern (0xF1%N :: lit "@b.c") /\
  (forall U, validate_email U (lit "a@b.c" ++ [10%N]) = true) /\
  ~ spec_pattern (lit "a@b.c" ++ [10%N]).
Proof.
  split; [intro U; reflexivity|].
  split; [intro H; apply email_shape_chars in H; vm_compute in H;
          discriminate H|].
  split; [intro U; reflexivity|].
  intro H. apply email_shape_chars in H. vm_compute in H. discriminate H.
Qed.

End EmailProps.

(* ================================================================== *)
(** * Properties of Event *)
(* ================================================================== *)

Module EventProps.

Import Event.

(** Both bounds are there and the lower one is above the upper one. *)
Definition inverted (lo hi : option Z) : Prop :=
  exists a b, lo = Some a /\ hi = Some b /\ (a > b)%Z.

Definition invertedb (lo hi : option Z) : bool :=
  match lo, hi with
  | Some a, Some b => (a >? b)%Z
  | _, _ => false
  end.

Lemma invertedb_spec (lo hi : option Z) :
  invertedb lo hi = true <-> inverted lo hi.
Proof.
  unfold inverted, invertedb. split.
  - destruct lo as [a|], hi as [b|]; try discriminate.
    intro H. exists a, b. repeat split. now apply Z.gtb_gt.
  - intros (a & b & -> & -> & H). now apply Z.gtb_gt.
Qed.

Definition age_message : string :=
  "min_age must be less than or equal to max_age".

Definition people_message : string :=
  "min_people must be less than or equal to max_people".

Lemma validate_age_range_cases (w : world) :
  validate_age_range w =
    if invertedb (min_age (self w)) (max_age (self w))
    then (Raise (ValueError age_message), w)
    else (Return tt, w).
Proof.
  cbv [validate_age_range bind get invertedb].
  destruct (min_age (self w)) as [lo|], (max_age (self w)) as [hi|];
    try reflexivity.
  destruct (lo >? hi)%Z; reflexivity.
Qed.

Lemma validate_people_range_cases (w : world) :
  validate_people_range w =
    if invertedb (min_people (self w)) (max_people (self w))
    then (Raise (ValueError people_message), w)
    else (Return tt, w).
Proof.
  cbv [validate_people_range bind get invertedb].
  destruct (min_people (self w)) as [lo|], (max_people (self w)) as [hi|];
    try reflexivity.
  destruct (lo >? hi)%Z; reflexivity.
Qed.

(** C6. [validate_age_range] raises the range error exactly when both age
    bounds are present and [min_age > max_age], and returns otherwise;
    [validate_people_range] does the same for the people bounds. Neither
    changes anything, whether it raises or returns. *)
Theorem validate_ranges (w : world) :
  (fst (validate_age_range w) = Raise (ValueError age_message) <->
   inverted (min_age (self w)) (max_age (self w))) /\
  (fst (validate_age_range w) = Return tt <->
   ~ inverted (min_age (self w)) (max_age (self w))) /\
  snd (validate_age_range w) = w /\
  (fst (validate_people_range w) = Raise (ValueError people_message) <->
   inverted (min_people (self w)) (max_people (self w))) /\
  (fst (validate_people_range w) = Return tt <->
   ~ inverted (min_people (self w)) (max_people (self w))) /\
  snd (validate_people_range w) = w.
Proof.
  rewrite validate_age_range_cases, validate_people_range_cases.
  rewrite <- !invertedb_spec.
  destruct (invertedb (min_age (self w)) (max_age (self w)));
    destruct (invertedb (min_people (self w)) (max_people (self w)));
    cbn [fst snd]; repeat split; try reflexivity; try discriminate;
    try (intros _; discriminate); try (intro H; exfalso; apply H; reflexivity);
    congruence.
Qed.

(** The three events of the specification: bounds 18 and 10 are refused,
    10 and 18 pass, and so does an absent lower bound. *)
Lemma validate_age_range_examples (d : session) :
  fst (validate_age_range
         {| self := Samples.bounds (Some 18%Z) (Some 10%Z) None None;
            db := d |}) = Raise (ValueError age_message) /\
  fst (validate_age_range
         {| self := Samples.bounds (Some 10%Z) (Some 18%Z) None None;
            db := d |}) = Return tt /\
  fst (validate_age_range
         {| self := Samples.bounds None (Some 10%Z) None None;
            db := d |}) = Return tt.
Proof. repeat split. Qed.

(** ** save *)

(** The state after [db.session.add(self)]. *)
Definition added (w : world) : world := snd (session_add w).

Lemma save_cases (w : world) :
  save w =
    if invertedb (min_age (self w)) (max_age (self w))
    then (Raise (ValueError age_message), w)
    else if invertedb (min_people (self w)) (max_people (self w))
    then (Raise (ValueError people_message), w)
    else session_commit (added w).
Proof.
  unfold save, bind at 1. rewrite validate_age_range_cases.
  destruct (invertedb (min_age (self w)) (max_age (self w))); [reflexivity|].
  unfold bind at 1. rewrite validate_people_range_cases.
  destruct (invertedb (min_people (self w)) (max_people (self w)));
    reflexivity.
Qed.

Lemma session_commit_calls (w : world) :
  calls (db (snd (session_commit w))) = calls (db w) ++ [Commit].
Proof.
  unfold session_commit.
  destruct (respond (db w) (calls (db w) ++ [Commit]) (self w)) as [r e].
  reflexivity.
Qed.

(** C2. [save] runs [validate_age_range] first: when that raises, [save]
    raises the same error. Otherwise it runs [validate_people_range], and
    when that raises, [save] raises that error. In both cases the state is
    left as it was, so the session has received neither an add nor a commit.
    Only when both validations return does the session receive requests:
    the add of this event and then the commit. *)
Theorem save_validates_before_persisting (w : world) :
  (forall e, fst (validate_age_range w) = Raise e ->
     save w = (Raise e, w)) /\
  (forall e, fst (validate_age_range w) = Return tt ->
     fst (validate_people_range w) = Raise e ->
     save w = (Raise e, w)) /\
  (fst (validate_age_range w) = Return tt ->
   fst (validate_people_range w) = Return tt ->
   save w = session_commit (added w) /\
   calls (db (snd (save w))) = calls (db w) ++ [Add (self w); Commit]).
Proof.
  rewrite save_cases, validate_age_range_cases, validate_people_range_cases.
  destruct (invertedb (min_age (self w)) (max_age (self w)));
    destruct (invertedb (min_people (self w)) (max_people (self w)));
    cbn [fst snd]; repeat split; intros; try discriminate; try congruence.
  rewrite session_commit_calls. cbn. rewrite <- app_assoc. reflexivity.
Qed.

(** C2 at the event with [min_people=5, max_people=2]: nothing reaches the
    session. *)
Lemma save_validates_before_persisting_witness :
  save {| self := Samples.bounds None None (Some 5%Z) (Some 2%Z);
          db := Samples.strict |}
  = (Raise (ValueError people_message),
     {| self := Samples.bounds None None (Some 5%Z) (Some 2%Z);
        db := Samples.strict |}).
Proof.
  apply (proj1 (proj2 (save_validates_before_persisting
           {| self := Samples.bounds None None (Some 5%Z) (Some 2%Z);
              db := Samples.strict |}))); reflexivity.
Defined.

(** ** What a successful save guarantees *)





(** The same event with [min_age = -5] passes the in-core validation, and
    the stand-in refuses it at the commit with the constraint's name. *)
Lemma save_negative_min_age_strict :
  let e := with_date (VInt 20241231%Z)
             (Event.mk None (Some 1%Z) (Some (lit "Hike")) (Some nature)
                VNone (Some (lit "Montseny")) (Some 240%Z)
                (Some (lit "A walk")) (Some catalan) (Some all_genders)
                (Some free) None (Some (-5)%Z) (Some 30%Z) None None
                (Some false) (Some true) (Some false)) in
  fst (validate_age_range {| self := e; db := Samples.strict |}) = Return tt /\
  fst (save {| self := e; db := Samples.strict |})
  = Raise (IntegrityError "event_min_age_positive").
Proof. cbv zeta. split; reflexivity. Qed.

(** ** Dates *)

Definition date_message : string :=
  "Invalid date format. Date should be in the format 'DD-MM-YYYY'".

(** [validate_date] always returns, changes nothing, and tells whether
    [strptime] succeeds. *)
Lemma validate_date_cases (U : Unicode.db) (text : str) (w : world) :
  validate_date U text w =
    (Return (match Strptime.strptime U text with
             | Return _ => true
             | Raise _ => false
             end), w).
Proof.
  unfold validate_date, Strptime.strptime.
  destruct (Re.match_ (Strptime.format_regex U) text) as [[groups rest]|];
    [|reflexivity].
  destruct rest; [|reflexivity].
  destruct (option_map (Strptime.int U) (Strptime.group "Y" groups))
    as [[y|]|];
    destruct (option_map (Strptime.int U) (Strptime.group "m" groups))
    as [[m|]|];
    destruct (option_map (Strptime.int U) (Strptime.group "d" groups))
    as [[d|]|]; try reflexivity.
  destruct (Strptime.check_date_fields y m d); reflexivity.
Qed.

(** [set_date] raises the invalid-format error exactly when [validate_date]
    is false, and then changes nothing; otherwise it stores the parsed
    date. *)
Lemma set_date_cases (U : Unicode.db) (text : str) (w : world) :
  set_date U text w =
    match Strptime.strptime U text with
    | Return d =>
        (Return tt, {| self := with_date (VDateTime d) (self w); db := db w |})
    | Raise _ => (Raise (ValueError date_message), w)
    end.
Proof.
  unfold set_date, bind. rewrite validate_date_cases.
  destruct (Strptime.strptime U text); reflexivity.
Qed.

Lemma set_date_raises_iff (U : Unicode.db) (text : str) (w : world) :
  set_date U text w = (Raise (ValueError date_message), w) <->
  validate_date U text w = (Return false, w).
Proof.
  rewrite set_date_cases, validate_date_cases.
  destruct (Strptime.strptime U text); split; intro H; try discriminate H;
    reflexivity.
Qed.

(** The two dates of the specification. *)
Lemma set_date_examples (U : Unicode.db) (w : world) :
  set_date U (lit "31-12-2024") w =
    (Return tt,
     {| self := with_date (VDateTime (mkdatetime 2024 12 31 0 0 0 0)) (self w);
        db := db w |}) /\
  set_date U (lit "2024-12-31") w = (Raise (ValueError date_message), w).
Proof. rewrite !set_date_cases. split; reflexivity. Qed.

(** C5, the failing input. A day and a month of one digit each are
    accepted: [validate_date] is true on [1-2-2024] and [set_date] stores
    the first of February 2024, although the text is not of the form
    DD-MM-YYYY that the claim and the error message of [set_date] name. *)
Theorem validate_date_one_digit (U : Unicode.db) (w : world) :
  validate_date U (lit "1-2-2024") w = (Return true, w) /\
  set_date U (lit "1-2-2024") w =
    (Return tt,
     {| self := with_date (VDateTime (mkdatetime 2024 2 1 0 0 0 0)) (self w);
        db := db w |}) /\
  validate_date U (lit " 1-2-2024") w = (Return true, w).
Proof.
  rewrite !validate_date_cases, set_date_cases. repeat split.
Qed.

End EventProps.

(* ================================================================== *)
(** * Properties of serialize *)
(* ================================================================== *)

Module SerializeProps.

(** C9. [serialize] on a user returns a mapping with exactly the keys id,
    username, email, first_name, last_name, followed_users and
    users_following_me, so neither password nor salt; on an event exactly
    the nineteen declared columns; on a sign-up exactly id, user_id and
    event_id. No call changes the state, so a repeated call returns an equal
    mapping. *)
Theorem serialize_keys :
  (forall w : User.world,
     exists m,
       User.serialize w = (Return m, w) /\
       keys m = ["id"; "username"; "email"; "first_name"; "last_name";
                 "followed_users"; "users_following_me"]%string /\
       ~ In "password"%string (keys m) /\ ~ In "salt"%string (keys m) /\
       User.serialize (snd (User.serialize w)) = (Return m, w)) /\
  (forall w : Event.world,
     exists m,
       Event.serialize w = (Return m, w) /\
       keys m = ["id"; "user_owner"; "name"; "type"; "date"; "place";
                 "duration"; "description"; "language"; "gender";
                 "price_type"; "price"; "min_age"; "max_age"; "min_people";
                 "max_people"; "lgtbi"; "pet_friendly";
                 "kid_friendly"]%string /\
       Event.serialize (snd (Event.serialize w)) = (Return m, w)) /\
  (forall x : Signedup_events.t,
     exists m,
       Signedup_events.serialize x = (Return m, x) /\
       keys m = ["id"; "user_id"; "event_id"]%string /\
       Signedup_events.serialize (snd (Signedup_events.serialize x))
       = (Return m, x)).
Proof.
  split; [|split]; intro w; eexists; (split; [reflexivity|]).
  - split; [reflexivity|]. split; [|split; [|reflexivity]];
      cbn; intuition discriminate.
  - split; reflexivity.
  - split; reflexivity.
Qed.

(** Each key of a user's mapping carries the column of that name. *)
Lemma user_serialize_values (w : User.world) :
  fst (User.serialize w) =
    Return [ ("id", of_int (User.id (User.self w)));
             ("username", of_str (User.username (User.self w)));
             ("email", of_str (User.email (User.self w)));
             ("first_name", of_str (User.first_name (User.self w)));
             ("last_name", of_str (User.last_name (User.self w)));
             ("followed_users", of_int (User.followed_users (User.self w)));
             ("users_following_me",
              of_int (User.users_following_me (User.self w))) ]%string.
Proof. reflexivity. Qed.

End SerializeProps.

(* ================================================================== *)
(** * Further properties of User: passwords over a history of calls *)
(* ================================================================== *)

Module UserHistory.

Import User UserProps.

(** A code point that the UTF-8 codec accepts: in range and no surrogate. *)
Definition scalar (c : N) : bool :=
  ((c <? 0x110000) && negb ((0xD800 <=? c) && (c <=? 0xDFFF)))%N.

Lemma encode_code_point_scalar (c : N) :
  encode_code_point c <> None <-> scalar c = true.
Proof.
  unfold encode_code_point, scalar.
  destruct (c <? 0x80)%N eqn:H1; [|destruct (c <? 0x800)%N eqn:H2;
    [|destruct ((0xD800 <=? c) && (c <=? 0xDFFF))%N eqn:H3;
      [|destruct (c <? 0x10000)%N eqn:H4;
        [|destruct (c <? 0x110000)%N eqn:H5]]]].
  - apply N.ltb_lt in H1.
    assert (E1 : (c <? 0x110000)%N = true) by (apply N.ltb_lt; lia).
    assert (E2 : (0xD800 <=? c)%N = false) by (apply N.leb_gt; lia).
    rewrite E1, E2. split; [reflexivity | discriminate].
  - apply N.ltb_lt in H2.
    assert (E1 : (c <? 0x110000)%N = true) by (apply N.ltb_lt; lia).
    assert (E2 : (0xD800 <=? c)%N = false) by (apply N.leb_gt; lia).
    rewrite E1, E2. split; [reflexivity | discriminate].
  - rewrite andb_false_r. split; [intro H; now contradiction H | discriminate].
  - apply N.ltb_lt in H4.
    assert (E1 : (c <? 0x110000)%N = true) by (apply N.ltb_lt; lia).
    rewrite E1. split; [reflexivity | discriminate].
  - split; [reflexivity | discriminate].
  - split; [intro H; now contradiction H | discriminate].
Qed.

Lemma encode_utf8_scalar (s : str) :
  encode_utf8 s <> None <-> forallb scalar s = true.
Proof.
  induction s as [|c s IH]; cbn [encode_utf8 forallb].
  - split; [reflexivity | discriminate].
  - rewrite andb_true_iff, <- IH, <- encode_code_point_scalar.
    destruct (encode_code_point c), (encode_utf8 s); split;
      try (intros [H1 H2]); try (intro H); try split; try discriminate;
      try (now contradiction H); try (now contradiction H1);
      try (now contradiction H2).
Qed.

Section Passwords.

Variable U : Unicode.db.
Variable pbkdf2_hmac : string -> bytes -> bytes -> N -> bytes.

Local Abbreviation kdf pw s := (pbkdf2_hmac "sha256" pw s 100000%N).

(** X2. [set_password] returns exactly on the plaintexts all of whose code
    points are in range and no surrogates, and raises the encoding error on
    every other plaintext; the empty plaintext is accepted. *)
Theorem set_password_returns_iff (p : str) (w : world) :
  (fst (set_password pbkdf2_hmac p w) = Return tt <->
   forallb scalar p = true) /\
  (fst (set_password pbkdf2_hmac p w) = Raise UnicodeEncodeError <->
   forallb scalar p = false) /\
  fst (set_password pbkdf2_hmac [] w) = Return tt.
Proof.
  assert (Hempty : fst (set_password pbkdf2_hmac [] w) = Return tt).
  { rewrite (set_password_encodable pbkdf2_hmac [] [] w eq_refl).
    reflexivity. }
  pose proof (encode_utf8_scalar p) as Hs.
  destruct (encode_utf8 p) as [pb|] eqn:Hp.
  - rewrite (set_password_encodable pbkdf2_hmac p pb w Hp). cbn [fst].
    assert (Hall : forallb scalar p = true) by (apply Hs; discriminate).
    rewrite Hall. split; [|split; [|exact Hempty]].
    + split; reflexivity.
    + split; discriminate.
  - rewrite (set_password_unencodable pbkdf2_hmac p w Hp). cbn [fst].
    assert (Hall : forallb scalar p = false).
    { destruct (forallb scalar p); [|reflexivity].
      destruct (proj2 Hs eq_refl). reflexivity. }
    rewrite Hall. split; [|split; [|exact Hempty]].
    + split; discriminate.
    + split; reflexivity.
Qed.

(** ** The calls that leave the password alone *)

Lemma step_keeps_password (w : world) (o : op) :
  is_set_password o = false ->
  password (self (step U pbkdf2_hmac w o)) = password (self w).
Proof.
  destruct o as [e|p|c|]; intro H; try discriminate H; cbn [step].
  - rewrite set_email_cases. destruct (validate_email U e); reflexivity.
  - rewrite check_password_cases.
    destruct (encode_utf8 c); [destruct (salt (self w)) eqn:E|];
      reflexivity.
  - reflexivity.
Qed.

Lemma run_keeps_password (ops : list op) (w : world) :
  forallb (fun o => negb (is_set_password o)) ops = true ->
  password (self (run U pbkdf2_hmac ops w)) = password (self w).
Proof.
  unfold run. revert w.
  induction ops as [|o ops IH]; intros w H; [reflexivity|].
  cbn in H. apply andb_true_iff in H. destruct H as [Ho Hops].
  cbn [fold_left]. rewrite (IH _ Hops). apply step_keeps_password.
  now apply negb_true_iff.
Qed.

(** X3. A password that was set stays valid across any later calls of
    [set_email], [check_password] and [serialize], whatever they returned or
    raised: [check_password] on the plaintext still returns true. *)
Theorem password_survives_other_calls
  (p : str) (w w1 : world) (ops : list op) :
  set_password pbkdf2_hmac p w = (Return tt, w1) ->
  forallb (fun o => negb (is_set_password o)) ops = true ->
  check_password pbkdf2_hmac p (run U pbkdf2_hmac ops w1)
  = (Return true, run U pbkdf2_hmac ops w1).
Proof.
  intros Hset Hops.
  apply set_password_returns in Hset. destruct Hset as (pb & Hp & ->).
  rewrite check_password_cases, Hp.
  rewrite (run_keeps_salt U pbkdf2_hmac ops _ Hops).
  rewrite (run_keeps_password ops _ Hops).
  cbn [self salt password with_password with_salt bytes_eq_value].
  now rewrite bytes_eqb_refl.
Qed.

(** X1. A [set_password] that fails on its plaintext is not a no-op: it has
    already replaced the salt while the stored hash is still the old one.
    After it, the password set before verifies only if the key derivation
    gives the same key under the new salt as under the old one. *)
Theorem failed_set_password_rotates_salt (p q : str) (w w1 : world) :
  set_password pbkdf2_hmac p w = (Return tt, w1) ->
  encode_utf8 q = None ->
  exists w2 pb s1 s2,
    set_password pbkdf2_hmac q w1 = (Raise UnicodeEncodeError, w2) /\
    encode_utf8 p = Some pb /\
    salt (self w1) = Present s1 /\
    salt (self w2) = Present s2 /\
    s2 = map (entropy (os w1)) (seq (drawn (os w1)) 32) /\
    password (self w2) = password (self w1) /\
    password (self w1) = VBytes (kdf pb s1) /\
    (check_password pbkdf2_hmac p w2 = (Return true, w2) <->
     kdf pb s2 = kdf pb s1) /\
    (check_password pbkdf2_hmac p w2 = (Return false, w2) <->
     kdf pb s2 <> kdf pb s1).
Proof.
  intros Hset Hq.
  apply set_password_returns in Hset. destruct Hset as (pb & Hp & ->).
  set (w1 := {| self := _; os := _ |}).
  eexists. exists pb, (next_salt w), (next_salt w1).
  split; [apply (set_password_unencodable pbkdf2_hmac q w1 Hq)|].
  split; [exact Hp|]. split; [reflexivity|]. split; [reflexivity|].
  split; [reflexivity|]. split; [reflexivity|]. split; [reflexivity|].
  rewrite check_password_cases, Hp.
  cbn [w1 self salt password with_password with_salt bytes_eq_value].
  destruct (bytes_eqb (kdf pb (next_salt w1)) (kdf pb (next_salt w))) eqn:E.
  - apply bytes_eqb_eq in E. split; split; intro H;
      try reflexivity; try assumption; try discriminate H.
    contradiction.
  - assert (Hne : kdf pb (next_salt w1) <> kdf pb (next_salt w)).
    { intro H. apply bytes_eqb_eq in H. congruence. }
    split; split; intro H; try reflexivity; try assumption;
      try discriminate H. contradiction.
Qed.

(** ** The salt over a history *)

Lemma step_set_password_salt (w : world) (p : str) :
  salt (self (step U pbkdf2_hmac w (SetPassword p))) = Present (next_salt w).
Proof.
  cbn [step]. destruct (encode_utf8 p) as [pb|] eqn:Hp.
  - rewrite (set_password_encodable pbkdf2_hmac p pb w Hp). reflexivity.
  - rewrite (set_password_unencodable pbkdf2_hmac p w Hp). reflexivity.
Qed.

Lemma step_drawn (w : world) (o : op) :
  drawn (os (step U pbkdf2_hmac w o)) =
  drawn (os w) + (if is_set_password o then 32 else 0).
Proof.
  destruct o as [e|p|c|]; cbn [step is_set_password].
  - rewrite set_email_cases. destruct (validate_email U e); cbn; lia.
  - destruct (encode_utf8 p) as [pb|] eqn:Hp.
    + rewrite (set_password_encodable pbkdf2_hmac p pb w Hp). reflexivity.
    + rewrite (set_password_unencodable pbkdf2_hmac p w Hp). reflexivity.
  - rewrite check_password_cases.
    destruct (encode_utf8 c); [destruct (salt (self w))|]; cbn; lia.
  - cbn. lia.
Qed.

(** The salt is well formed: absent, or 32 bytes long. *)
Definition salt_ok (w : world) : Prop :=
  match salt (self w) with
  | Absent => True
  | Present s => List.length s = 32
  end.

Lemma step_salt_ok (w : world) (o : op) :
  salt_ok w -> salt_ok (step U pbkdf2_hmac w o).
Proof.
  intro H. unfold salt_ok. destruct (is_set_password o) eqn:Ho.
  - destruct o; try discriminate Ho.
    rewrite step_set_password_salt. apply next_salt_length.
  - rewrite (step_keeps_salt U pbkdf2_hmac w o Ho). exact H.
Qed.

Lemma step_salt_present (w : world) (o : op) :
  salt (self w) <> Absent -> salt (self (step U pbkdf2_hmac w o)) <> Absent.
Proof.
  intro H. destruct (is_set_password o) eqn:Ho.
  - destruct o; try discriminate Ho.
    rewrite step_set_password_salt. discriminate.
  - rewrite (step_keeps_salt U pbkdf2_hmac w o Ho). exact H.
Qed.

Lemma run_salt_present (ops : list op) (w : world) :
  salt (self w) <> Absent -> salt (self (run U pbkdf2_hmac ops w)) <> Absent.
Proof.
  unfold run. revert w.
  induction ops as [|o ops IH]; intros w H; [exact H|].
  cbn [fold_left]. apply IH. apply step_salt_present. exact H.
Qed.

(** X4. Over any history of calls on a constructed user: the salt is there
    exactly when [set_password] was called at least once (whether it
    returned or raised), a salt that is there is 32 bytes long, and the
    bytes drawn from the operating system are 32 for each [set_password]
    call and none for any other call. *)
Theorem salt_over_history (ops : list op) (u : t) (r : os_random) :
  salt u = Absent ->
  let w := run U pbkdf2_hmac ops {| self := u; os := r |} in
  (salt (self w) = Absent <->
   forallb (fun o => negb (is_set_password o)) ops = true) /\
  (forall s, salt (self w) = Present s -> List.length s = 32) /\
  drawn (os w) = drawn r + 32 * List.length (filter is_set_password ops).
Proof.
  intros Hu w. subst w.
  set (w0 := {| self := u; os := r |}).
  assert (Hu0 : salt (self w0) = Absent) by exact Hu.
  assert (Hok : salt_ok w0) by (unfold salt_ok; rewrite Hu0; exact I).
  change (drawn r) with (drawn (os w0)).
  clearbody w0. clear Hu. split; [|split].
  - split.
    + revert w0 Hu0 Hok. unfold run.
      induction ops as [|o ops IH]; intros w0 Hu0 Hok H; [reflexivity|].
      cbn [fold_left] in H. cbn [forallb].
      destruct (is_set_password o) eqn:Ho.
      * exfalso. destruct o; try discriminate Ho.
        revert H. apply (run_salt_present ops).
        rewrite step_set_password_salt. discriminate.
      * cbn [negb andb]. apply (IH (step U pbkdf2_hmac w0 o)).
        -- rewrite (step_keeps_salt U pbkdf2_hmac w0 o Ho). exact Hu0.
        -- apply step_salt_ok. exact Hok.
        -- exact H.
    + intro H. rewrite (run_keeps_salt U pbkdf2_hmac ops w0 H). exact Hu0.
  - assert (Hrun : salt_ok (run U pbkdf2_hmac ops w0)).
    { clear Hu0. revert w0 Hok. unfold run.
      induction ops as [|o ops IH]; intros w0 Hok; [exact Hok|].
      cbn [fold_left]. apply IH. apply step_salt_ok. exact Hok. }
    intros s Hs. unfold salt_ok in Hrun. rewrite Hs in Hrun. exact Hrun.
  - clear Hu0 Hok. revert w0. unfold run.
    induction ops as [|o ops IH]; intro w0; [cbn; lia|].
    cbn [fold_left filter]. rewrite IH, step_drawn.
    destruct (is_set_password o); cbn [List.length]; lia.
Qed.

End Passwords.

Import Samples.

(** X3 after the sample history. *)
Lemma password_survives_other_calls_witness :
  fst (check_password concat_kdf hunter2
         (run plain_db concat_kdf a_history
            (snd (set_password concat_kdf hunter2 w0))))
  = Return true.
Proof.
  rewrite (password_survives_other_calls plain_db concat_kdf hunter2 w0
             (snd (set_password concat_kdf hunter2 w0)) a_history
             eq_refl eq_refl).
  reflexivity.
Defined.

(** X1 where the stand-in derivation tells the two salts apart: the old
    password is refused after the failed call. *)
Lemma failed_set_password_rotates_salt_witness :
  fst (check_password concat_kdf hunter2
         (snd (set_password concat_kdf lone_surrogate
                 (snd (set_password concat_kdf hunter2 w0)))))
  = Return false.
Proof.
  destruct (failed_set_password_rotates_salt concat_kdf hunter2 lone_surrogate
              w0 (snd (set_password concat_kdf hunter2 w0)) eq_refl eq_refl)
    as (w2 & pb & s1 & s2 & Hfail & Hp & Hs1 & _ & Hs2 & _ & _ & _ & Hfalse).
  rewrite Hfail. cbn [snd].
  rewrite (proj2 Hfalse); [reflexivity|].
  injection Hp as <-. injection Hs1 as <-. subst s2.
  intro E. vm_compute in E. discriminate E.
Defined.

(** X4 on the sample history followed by a failing [set_password]. *)
Lemma salt_over_history_witness :
  exists s,
    salt (self (run plain_db concat_kdf
                  (a_history ++ [SetPassword lone_surrogate]) w0)) = Present s
    /\ List.length s = 32.
Proof.
  eexists. split; [reflexivity|].
  apply (proj1 (proj2 (salt_over_history plain_db concat_kdf
                         (a_history ++ [SetPassword lone_surrogate])
                         nobody counting_entropy eq_refl))).
  reflexivity.
Defined.

End UserHistory.

(* ================================================================== *)
(** * Further properties of validate_email *)
(* ================================================================== *)

Module EmailEdges.

Import Re User EmailProps.

(** Neither the at sign nor the newline is a word character, a dot or a
    hyphen, whatever the database says beyond Latin-1. *)
Lemma part_not_at (U : Unicode.db) : part (word U) 64%N = false.
Proof. reflexivity. Qed.

Lemma word_not_newline (U : Unicode.db) : word U 10%N = false.
Proof. reflexivity. Qed.

Lemma no_at_in_part (U : Unicode.db) (q : str) :
  forallb (part (word U)) q = true -> count_occ N.eq_dec q 64%N = 0.
Proof.
  induction q as [|c q IH]; [reflexivity|].
  cbn [forallb]. intro H. apply andb_true_iff in H. destruct H as [Hc Hq].
  cbn [count_occ]. destruct (N.eq_dec c 64%N) as [->|_].
  - rewrite part_not_at in Hc. discriminate Hc.
  - apply IH. exact Hq.
Qed.

Lemma word_is_part (U : Unicode.db) (q : str) :
  forallb (word U) q = true -> forallb (part (word U)) q = true.
Proof.
  rewrite !forallb_forall. intros H x Hx. unfold part, union.
  rewrite (H x Hx). reflexivity.
Qed.

(** X5. An accepted address holds exactly one at sign and at least five
    characters, and its first character is no at sign. *)
Theorem validate_email_one_at (U : Unicode.db) (s : str) :
  validate_email U s = true ->
  count_occ N.eq_dec s 64%N = 1 /\
  5 <= List.length s /\
  hd 0%N s <> 64%N.
Proof.
  intro H. apply validate_email_iff in H.
  destruct H as (tail & Htail & l & d & t & -> & Hl & Hd & Ht & Hal & Had & Hat).
  assert (Htail0 : count_occ N.eq_dec tail 64%N = 0).
  { destruct Htail as [-> | ->]; reflexivity. }
  split; [|split].
  - rewrite count_occ_app. cbn [count_occ].
    destruct (N.eq_dec 64 64) as [_|Hne]; [|contradiction].
    rewrite count_occ_app. cbn [count_occ].
    destruct (N.eq_dec 46 64) as [E|_]; [discriminate E|].
    rewrite count_occ_app.
    rewrite (no_at_in_part U l Hal), (no_at_in_part U d Had),
      (no_at_in_part U t (word_is_part U t Hat)), Htail0.
    reflexivity.
  - rewrite length_app. cbn [List.length]. rewrite length_app.
    cbn [List.length]. rewrite length_app.
    destruct l; [contradiction|]. destruct d; [contradiction|].
    destruct t; [contradiction|]. cbn [List.length]. lia.
  - destruct l as [|c l]; [contradiction|]. cbn [app hd].
    cbn [forallb] in Hal. apply andb_true_iff in Hal.
    destruct Hal as [Hc _]. intros ->.
    rewrite part_not_at in Hc. discriminate Hc.
Qed.

(** X5 at the address of the specification. *)
Lemma validate_email_one_at_witness :
  count_occ N.eq_dec (lit "a.b@c.org") 64%N = 1.
Proof.
  apply (proj1 (validate_email_one_at Samples.plain_db (lit "a.b@c.org")
                  eq_refl)).
Defined.

Lemma newline_overlooked (U : Unicode.db) (s : str) :
  validate_email U (s ++ [10%N]) = true <-> email_shape (word U) s.
Proof.
  rewrite validate_email_iff. split.
  - intros (tail & [-> | ->] & l & d & t & Hs & Hl & Hd & Ht & Hal & Had & Hat).
    + exfalso. rewrite app_nil_r in Hs.
      destruct (exists_last Ht) as (t' & x & ->).
      replace (l ++ 64%N :: d ++ 46%N :: t' ++ [x])
        with ((l ++ 64%N :: d ++ 46%N :: t') ++ [x]) in Hs
        by (repeat (rewrite <- app_assoc; cbn [app]); reflexivity).
      apply app_inj_tail in Hs. destruct Hs as [_ <-].
      rewrite forallb_app in Hat. cbn [forallb] in Hat.
      rewrite word_not_newline in Hat. rewrite andb_false_r in Hat.
      discriminate Hat.
    + replace (l ++ 64%N :: d ++ 46%N :: t ++ [10%N])
        with ((l ++ 64%N :: d ++ 46%N :: t) ++ [10%N]) in Hs
        by (repeat (rewrite <- app_assoc; cbn [app]); reflexivity).
      apply app_inj_tail in Hs. destruct Hs as [-> _].
      exists l, d, t. repeat split; assumption.
  - intros (l & d & t & -> & H). exists [10%N].
    split; [right; reflexivity|]. exists l, d, t.
    split; [|exact H].
    repeat (rewrite <- app_assoc; cbn [app]). reflexivity.
Qed.

(** X6. One newline at the very end is overlooked: [validate_email] accepts
    [s] followed by a newline exactly when [s] has the shape of an address;
    a second newline at the end makes it refuse, and an accepted string
    holds a newline nowhere but in its last place. *)
Theorem validate_email_trailing_newline (U : Unicode.db) (s : str) :
  (validate_email U (s ++ [10%N]) = true <-> email_shape (word U) s) /\
  validate_email U (s ++ [10%N; 10%N]) = false /\
  (forall a b, s = a ++ 10%N :: b -> validate_email U s = true -> b = []).
Proof.
  split; [apply newline_overlooked|]. split.
  - destruct (validate_email U (s ++ [10%N; 10%N])) eqn:E; [|reflexivity].
    exfalso. change [10%N; 10%N] with ([10%N] ++ [10%N]) in E.
    rewrite app_assoc in E.
    assert (Hshape : email_shape (word U) (s ++ [10%N])).
    { apply newline_overlooked. exact E. }
    apply email_shape_chars in Hshape.
    rewrite forallb_app in Hshape. cbn [forallb] in Hshape.
    unfold part, union in Hshape. rewrite word_not_newline in Hshape.
    cbn in Hshape. rewrite andb_false_r in Hshape. discriminate Hshape.
  - intros a b Hs Hv. apply validate_email_iff in Hv.
    destruct Hv as (tail & Htail & l & d & t & Hs' & H).
    assert (Hcore : ~ In 10%N (l ++ 64%N :: d ++ 46%N :: t)).
    { intro Hin.
      assert (Hshape : email_shape (word U) (l ++ 64%N :: d ++ 46%N :: t)).
      { exists l, d, t. split; [reflexivity | exact H]. }
      apply email_shape_chars in Hshape. rewrite forallb_forall in Hshape.
      specialize (Hshape _ Hin). unfold part, union in Hshape.
      rewrite word_not_newline in Hshape. discriminate Hshape. }
    replace (l ++ 64%N :: d ++ 46%N :: t ++ tail)
      with ((l ++ 64%N :: d ++ 46%N :: t) ++ tail) in Hs'
      by (repeat (rewrite <- app_assoc; cbn [app]); reflexivity).
    rewrite Hs in Hs'. destruct Htail as [-> | ->].
    + exfalso. rewrite app_nil_r in Hs'. apply Hcore. rewrite <- Hs'.
      apply in_elt.
    + destruct b as [|y b]; [reflexivity|]. exfalso.
      destruct (@exists_last _ (y :: b)) as (b' & x & Hb); [discriminate|].
      rewrite Hb in Hs'.
      replace (a ++ 10%N :: b' ++ [x]) with ((a ++ 10%N :: b') ++ [x]) in Hs'
        by (rewrite <- app_assoc; reflexivity).
      apply app_inj_tail in Hs'. destruct Hs' as [Hs' _].
      apply Hcore. rewrite <- Hs'. apply in_elt.
Qed.

End EmailEdges.

(* ================================================================== *)
(** * Further properties of Event: bounds, constraints and dates *)
(* ================================================================== *)

Module EventBounds.

Import Event EventProps.

(** A lower bound that is there is not negative. *)
Definition nonneg (lo : option Z) : Prop :=
  forall a, lo = Some a -> (0 <= a)%Z.

(** Two bounds that are both there are in order. *)
Definition ordered (lo hi : option Z) : Prop :=
  forall a b, lo = Some a -> hi = Some b -> (a <= b)%Z.

Lemma ordered_not_inverted (lo hi : option Z) :
  ordered lo hi <-> invertedb lo hi = false.
Proof.
  unfold ordered, invertedb. destruct lo as [a|], hi as [b|].
  - rewrite Z.gtb_ltb, Z.ltb_ge. split.
    + intro H. apply (H a b); reflexivity.
    + intros H x y [= <-] [= <-]. exact H.
  - split; [reflexivity | intros _ x y _ E; discriminate E].
  - split; [reflexivity | intros _ x y E; discriminate E].
  - split; [reflexivity | intros _ x y E; discriminate E].
Qed.

Lemma violated_iff (e : t) :
  violated table_args e = None <->
  nonneg (min_age e) /\ ordered (min_age e) (max_age e) /\
  nonneg (min_people e) /\ ordered (min_people e) (max_people e).
Proof.
  unfold table_args, nonneg, ordered. cbn [violated].
  destruct (min_age e) as [a|], (max_age e) as [b|],
    (min_people e) as [c|], (max_people e) as [d|]; cbn [sql_ge];
    repeat match goal with
           | |- context [(?u <=? ?v)%Z] =>
               let E := fresh "E" in
               destruct (Z.leb_spec u v) as [E|E]
           end;
    (split;
     [ intro H; try discriminate H;
       repeat split; intros; repeat match goal with
         | H : Some _ = Some _ |- _ => injection H as <-
         | H : None = Some _ |- _ => discriminate H
         end; assumption
     | intros (H1 & H2 & H3 & H4); try reflexivity; exfalso;
       first [ specialize (H1 _ eq_refl); lia
             | specialize (H2 _ _ eq_refl eq_refl); lia
             | specialize (H3 _ eq_refl); lia
             | specialize (H4 _ _ eq_refl eq_refl); lia ] ]).
Qed.

(** X7. The table's four check constraints hold of an event exactly when
    both validators pass on it and its lower bounds, where present, are not
    negative: the validators never refuse a row that the constraints
    admit. *)
Theorem constraints_and_validators (w : world) :
  violated table_args (self w) = None <->
  fst (validate_age_range w) = Return tt /\
  fst (validate_people_range w) = Return tt /\
  nonneg (min_age (self w)) /\ nonneg (min_people (self w)).
Proof.
  rewrite violated_iff, validate_age_range_cases, validate_people_range_cases.
  rewrite !ordered_not_inverted.
  destruct (invertedb (min_age (self w)) (max_age (self w)));
    destruct (invertedb (min_people (self w)) (max_people (self w)));
    cbn [fst]; split; intros (H1 & H2 & H3 & H4);
    try discriminate; repeat split; assumption.
Qed.

(** ** What set_date stores *)

(** X10. [set_date] returns exactly when [validate_date] is true. It either
    raises the invalid-format error and changes nothing, or returns having
    stored, in [date] and nowhere else, a date-time at midnight whose year
    is between 1 and 9999, whose month is between 1 and 12 and whose day
    exists in that month; the session is never touched. *)
Theorem set_date_effect (U : Unicode.db) (text : str) (w : world) :
  (fst (set_date U text w) = Return tt <->
   validate_date U text w = (Return true, w)) /\
  ((fst (set_date U text w) = Raise (ValueError date_message) /\
    snd (set_date U text w) = w) \/
   (exists y m d,
      fst (set_date U text w) = Return tt /\
      snd (set_date U text w) =
        {| self := with_date (VDateTime (mkdatetime y m d 0 0 0 0)) (self w);
           db := db w |} /\
      (1 <= y <= 9999)%Z /\ (1 <= m <= 12)%Z /\
      (1 <= d <= Strptime.days_in_month y m)%Z)).
Proof.
  split.
  { rewrite set_date_cases, validate_date_cases.
    destruct (Strptime.strptime U text); cbn [fst]; split; intro H;
      try reflexivity; discriminate H. }
  rewrite set_date_cases. unfold Strptime.strptime.
  destruct (Re.match_ (Strptime.format_regex U) text) as [[groups rest]|];
    [|left; split; reflexivity].
  destruct rest; [|left; split; reflexivity].
  destruct (option_map (Strptime.int U) (Strptime.group "Y" groups))
    as [[y|]|];
    destruct (option_map (Strptime.int U) (Strptime.group "m" groups))
    as [[m|]|];
    destruct (option_map (Strptime.int U) (Strptime.group "d" groups))
    as [[d|]|]; try (left; split; reflexivity).
  destruct (Strptime.check_date_fields y m d) eqn:Hc;
    [|left; split; reflexivity].
  right. exists y, m, d. split; [reflexivity|]. split; [reflexivity|].
  unfold Strptime.check_date_fields in Hc.
  repeat (apply andb_true_iff in Hc; destruct Hc as [Hc ?]).
  repeat match goal with
         | H : (_ <=? _)%Z = true |- _ => apply Z.leb_le in H
         end.
  lia.
Qed.

End EventBounds.

(* ================================================================== *)
(** * The dates that validate_date accepts *)
(* ================================================================== *)

Module DateShape.

Import Re Strptime.

(** The texts of a day, of a month and of a year, as the three directives
    admit them. *)
Definition day_text (U : Unicode.db) (t : str) : bool :=
  match t with
  | [a] => range "1" "9" a
  | [a; b] =>
      chr "3" a && range "0" "1" b || range "1" "2" a && digit U b
      || chr "0" a && range "1" "9" b || chr " " a && range "1" "9" b
  | _ => false
  end.

Definition month_text (t : str) : bool :=
  match t with
  | [a] => range "1" "9" a
  | [a; b] => chr "1" a && range "0" "2" b || chr "0" a && range "1" "9" b
  | _ => false
  end.

Definition year_text (U : Unicode.db) (t : str) : bool :=
  match t with
  | [a; b; c; d] => digit U a && digit U b && digit U c && digit U d
  | _ => false
  end.

(** ** What a match tells *)

Lemma take_sound (alt : list cls) :
  forall s t r, take alt s = Some (t, r) ->
    s = t ++ r /\ Forall2 (fun c x => c x = true) alt t.
Proof.
  induction alt as [|c alt IH]; intros s t r H; cbn [take] in H.
  - injection H as <- <-. split; [reflexivity | constructor].
  - destruct s as [|x s]; [discriminate H|].
    destruct (c x) eqn:Hx; [|discriminate H].
    destruct (take alt s) as [[t' r']|] eqn:Ht; [|discriminate H].
    injection H as <- <-. destruct (IH _ _ _ Ht) as [-> Hall].
    split; [reflexivity | constructor; assumption].
Qed.

Lemma group_sound (n : string) (alts : list (list cls)) (p : list item)
  (pos : nat) (s : str) (g : list (string * str)) (rest : str) :
  match_here (Group n alts :: p) pos s = Some (g, rest) ->
  exists alt t r g',
    In alt alts /\ take alt s = Some (t, r) /\
    match_here p (pos + List.length t) r = Some (g', rest) /\
    g = (n, t) :: g'.
Proof.
  cbn [match_here]. induction alts as [|alt alts IH]; [discriminate|].
  destruct (take alt s) as [[t r]|] eqn:Ht.
  - destruct (match_here p (pos + List.length t) r) as [[g' rest']|] eqn:Hk.
    + intros [= <- <-]. exists alt, t, r, g'.
      repeat split; [left; reflexivity | assumption..].
    + intro H. destruct (IH H) as (a & t' & r' & g' & Hin & H').
      exists a, t', r', g'. split; [right; exact Hin | exact H'].
  - intro H. destruct (IH H) as (a & t' & r' & g' & Hin & H').
    exists a, t', r', g'. split; [right; exact Hin | exact H'].
Qed.

Lemma one_sound (c : cls) (p : list item) (pos : nat) (s : str)
  (f : found) :
  match_here (One c :: p) pos s = Some f ->
  exists x s', s = x :: s' /\ c x = true /\ match_here p (S pos) s' = Some f.
Proof.
  cbn [match_here]. destruct s as [|x s]; [discriminate|].
  destruct (c x) eqn:Hx; [|discriminate].
  intro H. exists x, s. auto.
Qed.

Ltac forall2_inv :=
  repeat match goal with
         | H : Forall2 _ (_ :: _) _ |- _ => inversion H; subst; clear H
         | H : Forall2 _ [] _ |- _ => inversion H; subst; clear H
         end.

Lemma format_sound (U : Unicode.db) (text : str) (g : list (string * str))
  (rest : str) :
  match_ (format_regex U) text = Some (g, rest) ->
  exists dt mt yt,
    text = dt ++ 45%N :: mt ++ 45%N :: yt ++ rest /\
    day_text U dt = true /\ month_text mt = true /\ year_text U yt = true /\
    g = [("d", dt); ("m", mt); ("Y", yt)]%string.
Proof.
  unfold match_, format_regex. intro H.
  apply group_sound in H.
  destruct H as (ad & dt & r1 & g1 & Hind & Htd & H & ->).
  apply one_sound in H. destruct H as (x & r2 & -> & Hx & H).
  apply EmailProps.chr_true in Hx. subst x.
  apply group_sound in H.
  destruct H as (am & mt & r3 & g2 & Hinm & Htm & H & ->).
  apply one_sound in H. destruct H as (y & r4 & -> & Hy & H).
  apply EmailProps.chr_true in Hy. subst y.
  apply group_sound in H.
  destruct H as (ay & yt & r5 & g3 & Hiny & Hty & H & ->).
  cbn [match_here] in H. injection H as <- <-.
  apply take_sound in Htd, Htm, Hty.
  destruct Htd as [-> Hd], Htm as [-> Hm], Hty as [-> Hy].
  exists dt, mt, yt. split; [reflexivity|].
  split; [|split; [|split; [|reflexivity]]].
  - cbn [In] in Hind.
    destruct Hind as [<-|[<-|[<-|[<-|[<-|[]]]]]]; forall2_inv;
      cbn [day_text];
      repeat match goal with H : _ = true |- _ => rewrite H; clear H end;
      cbn [andb orb]; rewrite ?orb_true_r; reflexivity.
  - cbn [In] in Hinm.
    destruct Hinm as [<-|[<-|[<-|[]]]]; forall2_inv; cbn [month_text];
      repeat match goal with H : _ = true |- _ => rewrite H; clear H end;
      cbn [andb orb]; rewrite ?orb_true_r; reflexivity.
  - cbn [In] in Hiny. destruct Hiny as [<-|[]]. forall2_inv.
    cbn [year_text].
    repeat match goal with H : _ = true |- _ => rewrite H; clear H end.
    reflexivity.
Qed.

(** ** What matches *)

Lemma range_bounds (lo hi : ascii) (a : N) :
  range lo hi a = true -> (N_of_ascii lo <= a <= N_of_ascii hi)%N.
Proof.
  unfold range. intro H. apply andb_true_iff in H.
  destruct H as [H1 H2]. apply N.leb_le in H1, H2. split; assumption.
Qed.

Lemma range_1_9 (a : N) :
  range "1" "9" a = true ->
  (a = 49 \/ a = 50 \/ a = 51 \/ a = 52 \/ a = 53 \/ a = 54 \/ a = 55
   \/ a = 56 \/ a = 57)%N.
Proof.
  intro H. apply range_bounds in H.
  change (N_of_ascii "1") with 49%N in H.
  change (N_of_ascii "9") with 57%N in H. lia.
Qed.

Lemma range_0_1 (a : N) : range "0" "1" a = true -> (a = 48 \/ a = 49)%N.
Proof.
  intro H. apply range_bounds in H.
  change (N_of_ascii "0") with 48%N in H.
  change (N_of_ascii "1") with 49%N in H. lia.
Qed.

Lemma range_0_2 (a : N) :
  range "0" "2" a = true -> (a = 48 \/ a = 49 \/ a = 50)%N.
Proof.
  intro H. apply range_bounds in H.
  change (N_of_ascii "0") with 48%N in H.
  change (N_of_ascii "2") with 50%N in H. lia.
Qed.

Lemma range_1_2 (a : N) : range "1" "2" a = true -> (a = 49 \/ a = 50)%N.
Proof.
  intro H. apply range_bounds in H.
  change (N_of_ascii "1") with 49%N in H.
  change (N_of_ascii "2") with 50%N in H. lia.
Qed.

Ltac split_cases H :=
  repeat match type of H with
         | _ \/ _ => destruct H as [H | H]
         end; subst.

(** A day followed by a hyphen: the alternative that reads it is the first
    one after which the rest of the pattern can go on. *)
Lemma day_complete (U : Unicode.db) (t : str) (p : list item) (r : str)
  (g : list (string * str)) (rest : str) :
  day_text U t = true ->
  (forall pos, match_here p pos r = Some (g, rest)) ->
  forall pos,
    match_here (directive_d U :: One (chr "-") :: p) pos (t ++ 45%N :: r)
    = Some (("d"%string, t) :: g, rest).
Proof.
  intros Ht Hk pos. destruct t as [|a [|b [|c t]]]; try discriminate Ht.
  - cbn [day_text] in Ht. apply range_1_9 in Ht. split_cases Ht;
      cbn; rewrite Hk; reflexivity.
  - cbn [day_text] in Ht.
    repeat (apply orb_true_iff in Ht; destruct Ht as [Ht | Ht]);
      apply andb_true_iff in Ht; destruct Ht as [Ha Hb].
    + apply EmailProps.chr_true in Ha. subst a.
      apply range_0_1 in Hb. split_cases Hb; cbn; rewrite Hk; reflexivity.
    + apply range_1_2 in Ha. split_cases Ha;
        cbn; rewrite Hb; cbn; rewrite Hk; reflexivity.
    + apply EmailProps.chr_true in Ha. subst a.
      apply range_1_9 in Hb. split_cases Hb; cbn; rewrite Hk; reflexivity.
    + apply EmailProps.chr_true in Ha. subst a.
      apply range_1_9 in Hb. split_cases Hb; cbn; rewrite Hk; reflexivity.
Qed.

Lemma month_complete (U : Unicode.db) (t : str) (p : list item) (r : str)
  (g : list (string * str)) (rest : str) :
  month_text t = true ->
  (forall pos, match_here p pos r = Some (g, rest)) ->
  forall pos,
    match_here (directive_m :: One (chr "-") :: p) pos (t ++ 45%N :: r)
    = Some (("m"%string, t) :: g, rest).
Proof.
  intros Ht Hk pos. destruct t as [|a [|b [|c t]]]; try discriminate Ht.
  - cbn [month_text] in Ht. apply range_1_9 in Ht. split_cases Ht;
      cbn; rewrite Hk; reflexivity.
  - cbn [month_text] in Ht.
    repeat (apply orb_true_iff in Ht; destruct Ht as [Ht | Ht]);
      apply andb_true_iff in Ht; destruct Ht as [Ha Hb];
      apply EmailProps.chr_true in Ha; subst a.
    + apply range_0_2 in Hb. split_cases Hb; cbn; rewrite Hk; reflexivity.
    + apply range_1_9 in Hb. split_cases Hb; cbn; rewrite Hk; reflexivity.
Qed.

Lemma year_complete (U : Unicode.db) (t : str) :
  year_text U t = true ->
  forall pos, match_here [directive_Y U] pos t = Some ([("Y"%string, t)], []).
Proof.
  intros Ht pos. destruct t as [|a [|b [|c [|d [|e t]]]]]; try discriminate Ht.
  cbn [year_text] in Ht.
  repeat (apply andb_true_iff in Ht; destruct Ht as [Ht ?]).
  cbn. rewrite Ht. cbn. rewrite H1. cbn. rewrite H0. cbn. rewrite H.
  reflexivity.
Qed.

Lemma format_complete (U : Unicode.db) (dt mt yt : str) :
  day_text U dt = true -> month_text mt = true -> year_text U yt = true ->
  match_ (format_regex U) (dt ++ 45%N :: mt ++ 45%N :: yt)
  = Some ([("d", dt); ("m", mt); ("Y", yt)]%string, []).
Proof.
  intros Hd Hm Hy. unfold match_, format_regex.
  apply (day_complete U dt _ _ _ _ Hd). intro pos.
  apply (month_complete U mt _ _ _ _ Hm). intro pos'.
  apply (year_complete U yt Hy).
Qed.

(** ** strptime and validate_date *)

Lemma text_lengths (U : Unicode.db) (dt mt yt : str) :
  day_text U dt = true -> month_text mt = true -> year_text U yt = true ->
  1 <= List.length dt <= 2 /\ 1 <= List.length mt <= 2 /\ List.length yt = 4.
Proof.
  intros Hd Hm Hy.
  destruct dt as [|? [|? [|? ?]]]; try discriminate Hd;
    destruct mt as [|? [|? [|? ?]]]; try discriminate Hm;
    destruct yt as [|? [|? [|? [|? [|? ?]]]]]; try discriminate Hy;
    cbn [List.length]; lia.
Qed.

(** [strptime] succeeds exactly on a day, a hyphen, a month, a hyphen and a
    year, with nothing before or after, that name a date of the calendar;
    it returns that date at midnight. *)
Lemma strptime_iff (U : Unicode.db) (text : str) (v : datetime) :
  strptime U text = Return v <->
  exists dt mt yt y m d,
    text = dt ++ 45%N :: mt ++ 45%N :: yt /\
    day_text U dt = true /\ month_text mt = true /\ year_text U yt = true /\
    int U yt = Some y /\ int U mt = Some m /\ int U dt = Some d /\
    check_date_fields y m d = true /\
    v = mkdatetime y m d 0 0 0 0.
Proof.
  unfold strptime. split.
  - destruct (match_ (format_regex U) text) as [[g rest]|] eqn:Hm;
      [|discriminate].
    destruct rest; [|discriminate].
    apply format_sound in Hm.
    destruct Hm as (dt & mt & yt & -> & Hd & Hmo & Hy & ->).
    cbn [group String.eqb Ascii.eqb Bool.eqb option_map].
    destruct (int U yt) as [y|] eqn:Iy; [|discriminate].
    destruct (int U mt) as [m|] eqn:Im; [|discriminate].
    destruct (int U dt) as [d|] eqn:Id; [|discriminate].
    destruct (check_date_fields y m d) eqn:Hc; [|discriminate].
    intros [= <-]. exists dt, mt, yt, y, m, d.
    rewrite app_nil_r. repeat split; try assumption; reflexivity.
  - intros (dt & mt & yt & y & m & d & -> & Hd & Hm & Hy & Iy & Im & Id
            & Hc & ->).
    rewrite (format_complete U dt mt yt Hd Hm Hy).
    cbn [group String.eqb Ascii.eqb Bool.eqb option_map].
    rewrite Iy, Im, Id, Hc. reflexivity.
Qed.

(** X11. [validate_date] is true exactly on the texts made of a day, a
    hyphen, a month, a hyphen and a year, with nothing before or after,
    where the day is one digit from 1 to 9, possibly after a zero or a
    space, or two digits from 10 to 31, the month is 1 to 9, possibly after
    a zero, or 10 to 12, the year is four decimal digits, and the three
    numbers name a date of the calendar between the years 1 and 9999. Such
    a text is 8 to 10 characters long. *)
Theorem validate_date_iff (U : Unicode.db) (text : str) (w : Event.world) :
  (Event.validate_date U text w = (Return true, w) <->
   exists dt mt yt y m d,
     text = dt ++ 45%N :: mt ++ 45%N :: yt /\
     day_text U dt = true /\ month_text mt = true /\ year_text U yt = true /\
     int U yt = Some y /\ int U mt = Some m /\ int U dt = Some d /\
     check_date_fields y m d = true) /\
  (Event.validate_date U text w = (Return true, w) ->
   8 <= List.length text <= 10).
Proof.
  assert (Hiff : Event.validate_date U text w = (Return true, w) <->
    exists dt mt yt y m d,
      text = dt ++ 45%N :: mt ++ 45%N :: yt /\
      day_text U dt = true /\ month_text mt = true /\
      year_text U yt = true /\
      int U yt = Some y /\ int U mt = Some m /\ int U dt = Some d /\
      check_date_fields y m d = true).
  { rewrite EventProps.validate_date_cases. split.
    - destruct (strptime U text) as [v|e] eqn:Hs; [|discriminate].
      intros _. apply strptime_iff in Hs.
      destruct Hs as (dt & mt & yt & y & m & d & H1 & H2 & H3 & H4 & H5 & H6
                      & H7 & H8 & _).
      exists dt, mt, yt, y, m, d. repeat split; assumption.
    - intros (dt & mt & yt & y & m & d & H1 & H2 & H3 & H4 & H5 & H6 & H7
              & H8).
      assert (Hs : strptime U text = Return (mkdatetime y m d 0 0 0 0)).
      { apply strptime_iff. exists dt, mt, yt, y, m, d.
        repeat split; assumption. }
      rewrite Hs. reflexivity. }
  split; [exact Hiff|].
  intro H. apply Hiff in H.
  destruct H as (dt & mt & yt & y & m & d & -> & Hd & Hm & Hy & _).
  destruct (text_lengths U dt mt yt Hd Hm Hy) as (L1 & L2 & L3).
  rewrite length_app. cbn [List.length]. rewrite length_app.
  cbn [List.length]. lia.
Qed.

End DateShape.

(* ================================================================== *)
(** * Serialization and representation after the setters *)
(* ================================================================== *)

Module Views.

Import UserProps.

(** [m[k]]: the value under a key, if the key is there. *)
Fixpoint lookup (k : string) (m : mapping) : option value :=
  match m with
  | [] => None
  | (k', v) :: m' => if String.eqb k' k then Some v else lookup k m'
  end.

Definition is_set_email (o : op) : bool :=
  match o with SetEmail _ => true | _ => false end.

Section UserViews.

Variable U : Unicode.db.
Variable pbkdf2_hmac : string -> bytes -> bytes -> N -> bytes.

(** X12. After a [set_email] that returned, [serialize] shows the new
    address under the key email, and under every other key what it showed
    before. *)
Theorem serialize_after_set_email (e : str) (w w' : User.world) :
  User.set_email U e w = (Return tt, w') ->
  exists m m',
    User.serialize w = (Return m, w) /\
    User.serialize w' = (Return m', w') /\
    lookup "email" m' = Some (VStr e) /\
    (forall k, k <> "email"%string -> lookup k m' = lookup k m).
Proof.
  rewrite set_email_cases. destruct (User.validate_email U e);
    [|discriminate].
  intros [= <-]. eexists. eexists.
  split; [reflexivity|]. split; [reflexivity|]. split; [reflexivity|].
  intros k Hk. cbn [lookup User.self User.with_email User.id User.username
    User.email User.first_name User.last_name User.followed_users
    User.users_following_me].
  destruct (String.eqb_spec "id" k); [reflexivity|].
  destruct (String.eqb_spec "username" k); [reflexivity|].
  destruct (String.eqb_spec "email" k); [|reflexivity].
  subst k. contradiction Hk. reflexivity.
Qed.

Lemma step_keeps_columns (w : User.world) (o : op) :
  is_set_email o = false ->
  fst (User.serialize (step U pbkdf2_hmac w o)) = fst (User.serialize w) /\
  fst (User.__repr__ (step U pbkdf2_hmac w o)) = fst (User.__repr__ w).
Proof.
  destruct o as [e|p|c|]; intro H; try discriminate H; cbn [step].
  - destruct (encode_utf8 p) as [pb|] eqn:Hp.
    + rewrite (set_password_encodable pbkdf2_hmac p pb w Hp).
      split; reflexivity.
    + rewrite (set_password_unencodable pbkdf2_hmac p w Hp).
      split; reflexivity.
  - rewrite check_password_cases.
    destruct (encode_utf8 c); [destruct (User.salt (User.self w))|];
      split; reflexivity.
  - split; reflexivity.
Qed.

(** X13. Password handling never shows: across any calls of [set_password],
    [check_password] and [serialize], whether they return or raise, both
    [serialize] and [__repr__] keep returning what they returned before. *)
Theorem views_ignore_passwords (ops : list op) (w : User.world) :
  forallb (fun o => negb (is_set_email o)) ops = true ->
  fst (User.serialize (run U pbkdf2_hmac ops w)) = fst (User.serialize w) /\
  fst (User.__repr__ (run U pbkdf2_hmac ops w)) = fst (User.__repr__ w).
Proof.
  unfold run. revert w.
  induction ops as [|o ops IH]; intros w H; [split; reflexivity|].
  cbn in H. apply andb_true_iff in H. destruct H as [Ho Hops].
  apply negb_true_iff in Ho. cbn [fold_left].
  destruct (IH (step U pbkdf2_hmac w o) Hops) as [IH1 IH2].
  destruct (step_keeps_columns w o Ho) as [S1 S2].
  split; congruence.
Qed.

End UserViews.

(** X12 at the address of the specification. *)
Lemma serialize_after_set_email_witness :
  exists m',
    User.serialize (snd (User.set_email Samples.plain_db (lit "a.b@c.org") w0))
    = (Return m', snd (User.set_email Samples.plain_db (lit "a.b@c.org") w0))
    /\ lookup "email" m' = Some (VStr (lit "a.b@c.org")).
Proof.
  destruct (serialize_after_set_email Samples.plain_db (lit "a.b@c.org") w0
              (snd (User.set_email Samples.plain_db (lit "a.b@c.org") w0))
              eq_refl)
    as (m & m' & _ & Hafter & Hemail & _).
  exists m'. split; assumption.
Defined.

(** X13 across two password changes, one of which fails, and a check. *)
Lemma views_ignore_passwords_witness :
  fst (User.serialize
         (run Samples.plain_db Samples.concat_kdf
            [SetPassword Samples.hunter2; SetPassword Samples.lone_surrogate;
             CheckPassword Samples.wrong] w0))
  = fst (User.serialize w0).
Proof.
  apply (proj1 (views_ignore_passwords Samples.plain_db Samples.concat_kdf
                  [SetPassword Samples.hunter2;
                   SetPassword Samples.lone_surrogate;
                   CheckPassword Samples.wrong] w0 eq_refl)).
Defined.

(** ** __repr__ *)

(** X14. [__repr__] of a user shows the address: two users whose address was
    accepted by [validate_email] have the same representation only if they
    have the same address, and neither is represented like a user without
    address. Without the validation this fails at one place: a user
    without address and a user whose address is the word None are
    represented alike. For events the same holds of the name. *)
Theorem repr_shows_the_attribute :
  (forall (w1 w2 : User.world) e1 e2,
     User.email (User.self w1) = Some e1 ->
     User.email (User.self w2) = Some e2 ->
     fst (User.__repr__ w1) = fst (User.__repr__ w2) -> e1 = e2) /\
  (forall U (w1 w2 : User.world) e1,
     User.validate_email U e1 = true ->
     User.email (User.self w1) = Some e1 ->
     User.email (User.self w2) = None ->
     fst (User.__repr__ w1) <> fst (User.__repr__ w2)) /\
  (forall (w1 w2 : User.world),
     User.email (User.self w1) = None ->
     User.email (User.self w2) = Some (lit "None") ->
     fst (User.__repr__ w1) = fst (User.__repr__ w2)) /\
  (forall (w1 w2 : Event.world) n1 n2,
     Event.name (Event.self w1) = Some n1 ->
     Event.name (Event.self w2) = Some n2 ->
     fst (Event.__repr__ w1) = fst (Event.__repr__ w2) -> n1 = n2).
Proof.
  split; [|split; [|split]].
  - intros w1 w2 e1 e2 H1 H2. cbv [User.__repr__ bind get ret fst].
    rewrite H1, H2. cbn [format_str]. intro H.
    injection H as H. apply app_inv_tail in H. exact H.
  - intros U w1 w2 e1 Hv H1 H2. cbv [User.__repr__ bind get ret fst].
    rewrite H1, H2. cbn [format_str]. intro H.
    injection H as H.
    change (e1 ++ lit ">" = lit "None" ++ lit ">") in H.
    apply app_inv_tail in H. subst e1.
    vm_compute in Hv. discriminate Hv.
  - intros w1 w2 H1 H2. cbv [User.__repr__ bind get ret fst].
    rewrite H1, H2. reflexivity.
  - intros w1 w2 n1 n2 H1 H2. cbv [Event.__repr__ bind get ret fst].
    rewrite H1, H2. cbn [format_str]. intro H.
    injection H as H. apply app_inv_tail in H. exact H.
Qed.

End Views.
